(** * Message bridge: dedup cache, stream buffer, conversation queue,
      token lifecycle and session routing.

    A shallow embedding of the bridging engine of the message-bridge plugin
    (TypeScript).  JavaScript strings are embedded as [string]; a character of
    the embedding stands for one code unit, so that [String.length] and
    [++] are the [.length] and [+] of the source.  JavaScript maps are
    [gmap]s, a JavaScript [Set] is the list of its members in insertion
    order, [Date.now()] is an integer of milliseconds. *)

From stdpp Require Import gmap strings list pretty.

Local Open Scope Z_scope.

(** ** JavaScript values used by the code *)

(** Truthiness of a string: only the empty string is falsy. *)
Definition truthy (s : string) : bool :=
  if decide (s = EmptyString) then false else true.

(** Truthiness of a possibly [null]/[undefined] string. *)
Definition truthy_opt (o : option string) : bool :=
  match o with
  | Some s => truthy s
  | None => false
  end.

(** [a || b] on possibly-undefined strings. *)
Definition js_or (a : option string) (b : option string) : option string :=
  if truthy_opt a then a else b.

(** The outcome of an awaited call: it returned a value or it threw. *)
Inductive Outcome (A : Type) : Type :=
  | Returned (a : A)
  | Threw.
Arguments Returned {A} a.
Arguments Threw {A}.

(** ** Dedup cache: [isMessageProcessed] of both clients *)

Module Dedup.

(** The two clients that carry a copy of the check. *)
Inductive Client : Type := Teams | Feishu.

(** [Set.has]. *)
Definition has (s : list string) (x : string) : bool := bool_decide (x ∈ s).

(** [Set.add]: a new member goes to the end, a present one keeps its place. *)
Definition add (s : list string) (x : string) : list string :=
  if has s x then s else s ++ [x].

(** [Set.delete]. *)
Definition delete (s : list string) (x : string) : list string :=
  filter (λ y, y ≠ x) s.

(** [Set.size]. *)
Definition size (s : list string) : Z := Z.of_nat (length s).

(** [set.values().next().value]: the oldest member, if any. *)
Definition first_value (s : list string) : option string := head s.

Definition CEILING : Z := 2000.

(** The member handed to [delete] once the set is over the ceiling.  The
    Teams client writes [first || ''], the Feishu client passes the value
    as it is ([delete(undefined)] removes nothing from a set of strings). *)
Definition evicted (c : Client) (s : list string) : option string :=
  match c with
  | Teams => Some (default EmptyString (js_or (first_value s) (Some EmptyString)))
  | Feishu => first_value s
  end.

Definition delete_opt (s : list string) (o : option string) : list string :=
  match o with
  | Some x => delete s x
  | None => s
  end.

(** [isMessageProcessed(messageId)]: the returned flag and the set after. *)
Definition isMessageProcessed (c : Client) (s : list string) (messageId : string)
  : bool * list string :=
  if has s messageId then (true, s)
  else
    let s1 := add s messageId in
    if bool_decide (CEILING < size s1)
    then (false, delete_opt s1 (evicted c s1))
    else (false, s1).

(** A run of checks; [run] keeps the set, [inserted] the ids that were
    inserted (the calls that answered [false]), oldest first. *)
Fixpoint run_from (c : Client) (s : list string) (ids : list string) : list string :=
  match ids with
  | [] => s
  | x :: ids' => run_from c (snd (isMessageProcessed c s x)) ids'
  end.

Fixpoint inserted_from (c : Client) (s : list string) (ids : list string) : list string :=
  match ids with
  | [] => []
  | x :: ids' =>
      let r := isMessageProcessed c s x in
      (if fst r then [] else [x]) ++ inserted_from c (snd r) ids'
  end.

Definition run (c : Client) (ids : list string) : list string := run_from c [] ids.
Definition inserted (c : Client) (ids : list string) : list string :=
  inserted_from c [] ids.

(** The set is the last 2000 inserted ids: the invariant of a run, with
    [log] the ids inserted so far. *)
Definition inv (s log : list string) : Prop :=
  NoDup s ∧ s = drop (length log - 2000)%nat log.

(** Ids ["0"], ["1"], ... used to fill a set. *)
Definition numbered (n : nat) : list string := pretty <$> seq 0 n.

End Dedup.

(** ** Stream aggregation buffer: [handleStreamUpdate] *)

Module Stream.

(** [part.type] of a backend part. *)
Inductive PartType : Type := PText | PReasoning | PTool | POther.

(** The fields of a [Part] the function reads; [part_text] is [None] when
    [typeof part.text] is not ['string']. *)
Record Part : Type := mkPart {
  part_type : PartType;
  part_text : option string
}.

(** [MessageBuffer]. *)
Record MessageBuffer : Type := mkBuffer {
  feishuMsgId : option string;
  fullContent : string;
  type : PartType;
  lastUpdateTime : Z;
  isFinished : bool
}.

(** An outbound platform call made by a flush. *)
Inductive Outbound : Type :=
  | SendMessage (chatId text : string)
  | EditMessage (chatId messageId text : string).

(** What the awaited platform call of a flush does: [sendMessage] answers a
    possibly-null id, [editMessage] a flag, either may throw. *)
Record Platform : Type := mkPlatform {
  send_outcome : Outcome (option string);
  edit_outcome : Outcome bool
}.

Definition UPDATE_INTERVAL : Z := 800.

(** The marker put before reasoning content. *)
Definition REASONING_PREFIX : string :=
  "🤔 思考中..."%string +:+ String (Ascii.ascii_of_nat 10%nat) (String (Ascii.ascii_of_nat 10%nat) EmptyString).

Definition is_text_or_reasoning (t : PartType) : bool :=
  match t with
  | PText | PReasoning => true
  | _ => false
  end.

(** The buffer created on the first fragment of a message. *)
Definition fresh_buffer (t : PartType) : MessageBuffer :=
  mkBuffer None EmptyString t 0 false.

(** The update of [buffer.fullContent]: a non-empty delta is appended,
    otherwise a string [part.text] replaces the content when it is at
    least as long. *)
Definition accumulate (content : string) (delta : option string) (text : option string)
  : string :=
  if truthy_opt delta then content +:+ default EmptyString delta
  else
    match text with
    | Some t =>
        if bool_decide (Z.of_nat (String.length content) ≤ Z.of_nat (String.length t))
        then t else content
    | None => content
    end.

(** [shouldUpdate]. *)
Definition shouldUpdate (b : MessageBuffer) (now : Z) : bool :=
  negb (truthy_opt (feishuMsgId b))
  || bool_decide (UPDATE_INTERVAL < now - lastUpdateTime b).

Definition displayContent (b : MessageBuffer) : string :=
  match type b with
  | PReasoning => REASONING_PREFIX +:+ fullContent b
  | _ => fullContent b
  end.

(** The flush: the call made and the buffer after it. *)
Definition flush (p : Platform) (chatId : string) (b : MessageBuffer) (now : Z)
  : MessageBuffer * list Outbound :=
  let b1 := mkBuffer (feishuMsgId b) (fullContent b) (type b) now (isFinished b) in
  if negb (truthy_opt (feishuMsgId b1)) then
    let b2 :=
      match send_outcome p with
      | Returned sentId =>
          if truthy_opt sentId
          then mkBuffer sentId (fullContent b1) (type b1) (lastUpdateTime b1) (isFinished b1)
          else b1
      | Threw => b1
      end in
    (b2, [SendMessage chatId (displayContent b1)])
  else
    (b1, [EditMessage chatId (default EmptyString (feishuMsgId b1)) (displayContent b1)]).

(** The buffer a call works on: the stored one, or a fresh one on the first
    fragment of a message. *)
Definition buffer_before (buffers : gmap string MessageBuffer)
    (msgId : string) (part : Part) : MessageBuffer :=
  match buffers !! msgId with
  | Some b => b
  | None => fresh_buffer (part_type part)
  end.

(** [handleStreamUpdate(feishu, chatId, msgId, part, delta)] at time [now]:
    the buffers after the call and the platform calls it made. *)
Definition handleStreamUpdate (p : Platform) (now : Z)
    (buffers : gmap string MessageBuffer)
    (chatId msgId : string) (part : Part) (delta : option string)
  : gmap string MessageBuffer * list Outbound :=
  if negb (truthy msgId) then (buffers, [])
  else if negb (is_text_or_reasoning (part_type part)) then (buffers, [])
  else
    let buffer := buffer_before buffers msgId part in
    let buffer1 :=
      mkBuffer (feishuMsgId buffer)
               (accumulate (fullContent buffer) delta (part_text part))
               (type buffer) (lastUpdateTime buffer) (isFinished buffer) in
    if shouldUpdate buffer1 now && truthy (fullContent buffer1)
    then
      let r := flush p chatId buffer1 now in
      (<[msgId := fst r]> buffers, snd r)
    else (<[msgId := buffer1]> buffers, []).

(** One fragment event as the listener hands it over. *)
Record Fragment : Type := mkFragment {
  f_platform : Platform;
  f_now : Z;
  f_chatId : string;
  f_msgId : string;
  f_part : Part;
  f_delta : option string
}.

Definition step (buffers : gmap string MessageBuffer) (f : Fragment)
  : gmap string MessageBuffer * list Outbound :=
  handleStreamUpdate (f_platform f) (f_now f) buffers
    (f_chatId f) (f_msgId f) (f_part f) (f_delta f).

(** The listener awaits each update before the next: a run is a fold. *)
Fixpoint run (buffers : gmap string MessageBuffer) (fs : list Fragment)
  : gmap string MessageBuffer * list Outbound :=
  match fs with
  | [] => (buffers, [])
  | f :: fs' =>
      let r := step buffers f in
      let r' := run (fst r) fs' in
      (fst r', snd r ++ snd r')
  end.

(** The accumulated content held for a message ([EmptyString] before its
    first fragment). *)
Definition content_of (buffers : gmap string MessageBuffer) (msgId : string) : string :=
  match buffers !! msgId with
  | Some b => fullContent b
  | None => EmptyString
  end.

Definition is_edit (o : Outbound) : bool :=
  match o with
  | EditMessage _ _ _ => true
  | SendMessage _ _ => false
  end.

(** The flush rule in the words of the specification: content is there,
    and no platform message exists yet or at least the interval has
    elapsed since the last flush. *)
Definition flush_due_spec (b : MessageBuffer) (now : Z) : bool :=
  truthy (fullContent b)
  && (negb (truthy_opt (feishuMsgId b))
      || bool_decide (UPDATE_INTERVAL ≤ now - lastUpdateTime b)).

End Stream.

(** ** Platform send: [sendMessage] of both clients *)

Module Send.

(** What a JavaScript [sendMessage] hands back to its caller. *)
Inductive SendResult : Type :=
  | Undefined
  | Null
  | Id (s : string).

(** [TeamsClient.sendMessage]: [post] is the outcome of the awaited
    [axios.post] (the token interceptor included) with the [id] field of
    the response; the [catch] turns a throw into [null]. *)
Definition teams_sendMessage (chatId text : string) (post : Outcome (option string))
  : Outcome SendResult :=
  match post with
  | Returned messageId =>
      match js_or messageId None with
      | Some s => Returned (Id s)
      | None => Returned Null
      end
  | Threw => Returned Null
  end.

(** [FeishuClient.sendMessage]: [create] is the outcome of the awaited
    [im.message.create] with the message id the platform reports; the body
    has no [return], so the caller receives [undefined] either way. *)
Definition feishu_sendMessage (chatId text : string) (create : Outcome (option string))
  : Outcome SendResult :=
  match create with
  | Returned _ => Returned Undefined
  | Threw => Returned Undefined
  end.

(** The contract in the words of the specification: the external id of the
    created message on success, [null] on a delivery failure. *)
Definition sendMessage_spec (platform : Outcome (option string)) : Outcome SendResult :=
  match platform with
  | Returned (Some s) => Returned (Id s)
  | Returned None => Returned Null
  | Threw => Returned Null
  end.

(** What the flush path sees of a result: [if (sentId)]. *)
Definition as_sentId (r : SendResult) : option string :=
  match r with
  | Id s => Some s
  | Null | Undefined => None
  end.

End Send.

(** ** Token lifecycle: [ensureValidToken] and [refreshAccessToken] *)

Module Token.

Record TeamsConfig : Type := mkConfig {
  client_id : string;
  client_secret : option string;
  tenant_id : option string;
  access_token : option string;
  refresh_token : option string
}.

Record TeamsClient : Type := mkClient {
  config : TeamsConfig;
  accessToken : option string;
  tokenExpiresAt : Z;
  refreshToken : option string
}.

(** The constructor. *)
Definition new_client (cfg : TeamsConfig) : TeamsClient :=
  mkClient cfg (js_or (access_token cfg) (Some EmptyString)) 0 (refresh_token cfg).

(** The form posted to the token endpoint. *)
Record RefreshRequest : Type := mkRequest {
  rq_tenant : string;
  rq_client_id : string;
  rq_refresh_token : string;
  rq_client_secret : option string
}.

(** The fields read from the token response. *)
Record TokenResponse : Type := mkResponse {
  rs_access_token : option string;
  rs_refresh_token : option string;
  rs_expires_in : option Z
}.

(** How a call of [ensureValidToken] goes up to its first suspension. *)
Inductive Ensure : Type :=
  | ReturnFresh
  | StartRefresh
  | ReturnAsIs
  | ThrowNoAccessToken.

Definition SAFETY_MARGIN : Z := 60000.

Definition ensureValidToken (c : TeamsClient) (now : Z) : Ensure :=
  if truthy_opt (accessToken c) && bool_decide (now < tokenExpiresAt c - SAFETY_MARGIN)
  then ReturnFresh
  else if truthy_opt (refreshToken c) && truthy (client_id (config c))
  then StartRefresh
  else if negb (truthy_opt (accessToken c))
  then ThrowNoAccessToken
  else ReturnAsIs.

(** [refreshAccessToken] up to [await axios.post]: the request it sends, or
    the throw of its own guard. *)
Definition refreshAccessToken_start (c : TeamsClient) : Outcome RefreshRequest :=
  if negb (truthy_opt (refreshToken c)) || negb (truthy (client_id (config c)))
  then Threw
  else
    Returned
      (mkRequest
         (default EmptyString (js_or (tenant_id (config c)) (Some "common"%string)))
         (client_id (config c))
         (default EmptyString (refreshToken c))
         (if truthy_opt (client_secret (config c)) then client_secret (config c) else None)).

Definition expires_in_or_default (o : option Z) : Z :=
  match o with
  | Some n => if bool_decide (n = 0) then 3600 else n
  | None => 3600
  end.

(** [refreshAccessToken] after the post settled at time [now]. *)
Definition refreshAccessToken_finish (c : TeamsClient) (res : Outcome TokenResponse)
    (now : Z) : TeamsClient :=
  match res with
  | Returned r =>
      mkClient (config c)
               (rs_access_token r)
               (now + expires_in_or_default (rs_expires_in r) * 1000)
               (js_or (rs_refresh_token r) (refreshToken c))
  | Threw => c
  end.

(** The client together with the refresh posts in flight and the log of
    every refresh post issued so far. *)
Record Sys : Type := mkSys {
  client : TeamsClient;
  in_flight : list RefreshRequest;
  issued : list RefreshRequest
}.

(** What can happen on the event loop: a caller invokes
    [ensureValidToken] at time [now], or the [i]-th post in flight settles. *)
Inductive Event : Type :=
  | Invoke (now : Z)
  | Settle (i : nat) (res : Outcome TokenResponse) (now : Z).

Definition step (s : Sys) (e : Event) : Sys :=
  match e with
  | Invoke now =>
      match ensureValidToken (client s) now with
      | StartRefresh =>
          match refreshAccessToken_start (client s) with
          | Returned rq => mkSys (client s) (in_flight s ++ [rq]) (issued s ++ [rq])
          | Threw => s
          end
      | _ => s
      end
  | Settle i res now =>
      match in_flight s !! i with
      | Some _ =>
          mkSys (refreshAccessToken_finish (client s) res now)
                (take i (in_flight s) ++ drop (S i) (in_flight s))
                (issued s)
      | None => s
      end
  end.

Definition run (s : Sys) (es : list Event) : Sys := foldl step s es.

Definition start (c : TeamsClient) : Sys := mkSys c [] [].

(** The number of refresh posts a run issues. *)
Definition refresh_calls (s : Sys) (es : list Event) : nat :=
  (length (issued (run s es)) - length (issued s))%nat.

(** The "no refresh credential" of the specification: no refresh token. *)
Definition no_refresh_credential (c : TeamsClient) : bool :=
  negb (truthy_opt (refreshToken c)).

(** A client whose token expires 30 s after time 1000000. *)
Definition expiring_client : TeamsClient :=
  mkClient
    (mkConfig "client-1"%string None None (Some "token-1"%string)
       (Some "refresh-1"%string))
    (Some "token-1"%string) 1030000 (Some "refresh-1"%string).

End Token.

(** ** Conversation queue: the promise chain of [createMessageHandler] *)

Module Queue.

(** The life of one [currentTask]: suspended on
    [await previousTask.catch(() => {})], running its body, or settled. *)
Inductive Status : Type := Waiting | Running | Resolved | Rejected.

#[global] Instance Status_eq_dec : EqDecision Status.
Proof. solve_decision. Defined.

(** A task; [previousTask] is the index of the promise found in
    [chatQueues], [None] for the [Promise.resolve()] default. *)
Record Task : Type := mkTask {
  chat : string;
  previousTask : option nat;
  status : Status
}.

(** Every promise created so far, in creation order, and [chatQueues]. *)
Record State : Type := mkState {
  tasks : list Task;
  chatQueues : gmap string nat
}.

Definition init : State := mkState [] ∅.

(** An inbound message ([isPing] is the value of the ping test), the
    continuation of task [i] being scheduled, and the body of task [i]
    finishing normally ([ok]) or with a throw. *)
Inductive Event : Type :=
  | Incoming (chatId : string) (isPing : bool)
  | Begin (i : nat)
  | Finish (i : nat) (ok : bool).

Definition settled (s : Status) : bool :=
  match s with
  | Resolved | Rejected => true
  | Waiting | Running => false
  end.

Definition begun (s : Status) : bool :=
  match s with
  | Waiting => false
  | _ => true
  end.

(** [previousTask.catch(() => {})] has settled: the awaited promise
    fulfils whether [previousTask] resolved or rejected. *)
Definition previous_settled (ts : list Task) (t : Task) : bool :=
  match previousTask t with
  | None => true
  | Some p =>
      match ts !! p with
      | Some tp => settled (status tp)
      | None => false
      end
  end.

Definition set_status (t : Task) (s : Status) : Task :=
  mkTask (chat t) (previousTask t) s.

(** One transition; [None] when the event cannot happen in the state. *)
Definition step (st : State) (e : Event) : option State :=
  match e with
  | Incoming chatId true => Some st
  | Incoming chatId false =>
      let currentTask := mkTask chatId (chatQueues st !! chatId) Waiting in
      Some (mkState (tasks st ++ [currentTask])
                    (<[chatId := length (tasks st)]> (chatQueues st)))
  | Begin i =>
      match tasks st !! i with
      | Some t =>
          if bool_decide (status t = Waiting) && previous_settled (tasks st) t
          then Some (mkState (<[i := set_status t Running]> (tasks st)) (chatQueues st))
          else None
      | None => None
      end
  | Finish i ok =>
      match tasks st !! i with
      | Some t =>
          if bool_decide (status t = Running)
          then Some (mkState
                       (<[i := set_status t (if ok then Resolved else Rejected)]> (tasks st))
                       (chatQueues st))
          else None
      | None => None
      end
  end.

Fixpoint run (st : State) (es : list Event) : option State :=
  match es with
  | [] => Some st
  | e :: es' =>
      match step st e with
      | Some st' => run st' es'
      | None => None
      end
  end.

(** The states the handler can be in. *)
Definition reachable (st : State) : Prop := ∃ es, run init es = Some st.

Definition status_at (st : State) (i : nat) : option Status :=
  status <$> tasks st !! i.

Definition chat_at (st : State) (i : nat) : option string :=
  chat <$> tasks st !! i.

(** [o] is the position of the last task of conversation [c] in a list of
    conversation ids, [None] when the conversation has no task. *)
Definition is_last (cs : list string) (c : string) (o : option nat) : Prop :=
  match o with
  | Some p => cs !! p = Some c ∧ ∀ k, (p < k)%nat → cs !! k ≠ Some c
  | None => ∀ k, cs !! k ≠ Some c
  end.

(** The invariant of the chain: [chatQueues] points at the newest task of
    each conversation, every task awaits the task that was the newest of
    its conversation when it was created, and a task that has begun has
    every earlier task of its conversation settled. *)
Record inv (st : State) : Prop := mkInv {
  inv_queue : ∀ c, is_last (chat <$> tasks st) c (chatQueues st !! c);
  inv_previous : ∀ j t, tasks st !! j = Some t →
    is_last (take j (chat <$> tasks st)) (chat t) (previousTask t);
  inv_order : ∀ i j ti tj, (i < j)%nat →
    tasks st !! i = Some ti → tasks st !! j = Some tj → chat ti = chat tj →
    begun (status tj) = true → settled (status ti) = true
}.

(** Two messages of conversation ["A"]; the task of the first has begun
    and was rejected, the task of the second still waits. *)
Definition after_rejection : State :=
  mkState [mkTask "A"%string None Rejected; mkTask "A"%string (Some 0%nat) Waiting]
          {[ "A"%string := 1%nat ]}.

End Queue.

(** ** Session routing: the streaming [createMessageHandler] *)

Module Router.

(** The fields of a thrown error the handler reads. *)
Record ApiError : Type := mkError {
  err_status : option Z;
  err_message : string
}.

Inductive Result (A : Type) : Type :=
  | Ok (a : A)
  | Err (e : ApiError).
Arguments Ok {A} a.
Arguments Err {A} e.

Record SessionContext : Type := mkContext {
  ctx_chatId : string;
  ctx_senderId : string
}.

Record State : Type := mkState {
  sessionCache : gmap string string;
  sessionToFeishuMap : gmap string SessionContext
}.

(** One inbound message with what the collaborators answer while it is
    handled: the ping test, the reaction id, the clock string of the title,
    [res.data?.id] of [createSession] and the outcome of [promptSession]. *)
Record Message : Type := mkMessage {
  text : string;
  messageId : string;
  senderId : string;
  isPing : bool;
  reaction : option string;
  timeString : string;
  createSession : Result (option string);
  promptSession : Result unit
}.

(** The calls the handler makes on its collaborators. *)
Inductive Call : Type :=
  | AddReaction (messageId : string)
  | CreateSession (title : string)
  | PromptSession (sessionId : string) (text : string)
  | SendMessage (chatId : string) (text : string)
  | RemoveReaction (messageId : string) (reactionId : string).

(** [chatId.slice(-4)]. *)
Definition slice_last4 (s : string) : string :=
  String.substring (String.length s - 4) 4 s.

Definition uniqueTitle (chatId : string) (time : string) : string :=
  "Chat "%string +:+ slice_last4 chatId +:+ " ["%string +:+ time +:+ "]"%string.

(** The lookup-or-create part of the [try] block: the session id or the
    error, the cache after, and the calls made. *)
Definition resolve (cache : gmap string string) (chatId : string) (m : Message)
  : Result string * gmap string string * list Call :=
  let call := CreateSession (uniqueTitle chatId (timeString m)) in
  let init_failed := Err (mkError None "Failed to init Session"%string) in
  let create :=
    match createSession m with
    | Ok (Some new) =>
        if truthy new
        then (Ok new, <[chatId := new]> cache, [call])
        else (init_failed, cache, [call])
    | Ok None => (init_failed, cache, [call])
    | Err e => (Err e, cache, [call])
    end in
  match cache !! chatId with
  | Some sid => if truthy sid then (Ok sid, cache, []) else create
  | None => create
  end.

(** The [catch] block: a 404 drops the binding, the user is told. *)
Definition on_error (st : State) (chatId : string) (e : ApiError) : State * list Call :=
  (mkState (if bool_decide (err_status e = Some 404)
            then delete chatId (sessionCache st) else sessionCache st)
           (sessionToFeishuMap st),
   [SendMessage chatId ("❌ Error: "%string +:+ err_message e)]).

(** The [finally] block. *)
Definition finally (m : Message) (reactionId : option string) : list Call :=
  if truthy (messageId m) && truthy_opt reactionId
  then [RemoveReaction (messageId m) (default EmptyString reactionId)]
  else [].

(** The handler returned by [createMessageHandler] on one message. *)
Definition handle (st : State) (chatId : string) (m : Message) : State * list Call :=
  if isPing m then (st, [SendMessage chatId "Pong! ⚡️"%string])
  else
    let reactionId := if truthy (messageId m) then reaction m else None in
    let calls0 := if truthy (messageId m) then [AddReaction (messageId m)] else [] in
    let '(r, cache1, calls1) := resolve (sessionCache st) chatId m in
    let st1 := mkState cache1 (sessionToFeishuMap st) in
    match r with
    | Ok sessionId =>
        let st2 :=
          mkState cache1 (<[sessionId := mkContext chatId (senderId m)]> (sessionToFeishuMap st)) in
        match promptSession m with
        | Ok _ =>
            (st2, calls0 ++ calls1 ++ [PromptSession sessionId (text m)] ++ finally m reactionId)
        | Err e =>
            let '(st3, calls3) := on_error st2 chatId e in
            (st3, calls0 ++ calls1 ++ [PromptSession sessionId (text m)] ++ calls3
                  ++ finally m reactionId)
        end
    | Err e =>
        let '(st3, calls3) := on_error st1 chatId e in
        (st3, calls0 ++ calls1 ++ calls3 ++ finally m reactionId)
    end.

(** The session a handled message was submitted to, if any. *)
Definition prompted (calls : list Call) : option string :=
  head (omap (λ c, match c with PromptSession sid _ => Some sid | _ => None end) calls).

(** The number of backend sessions a handled message created. *)
Definition is_create (c : Call) : bool :=
  match c with
  | CreateSession _ => true
  | _ => false
  end.

Definition created (calls : list Call) : nat := length (List.filter is_create calls).

(** The message invalidates the binding: its prompt fails with a 404. *)
Definition invalidates (m : Message) : bool :=
  match promptSession m with
  | Ok _ => false
  | Err e => bool_decide (err_status e = Some 404)
  end.

(** Three messages of one conversation: the first gets session ["ses_1"],
    the prompt of the second meets a 404, the third gets ["ses_2"]. *)
Definition first_message : Message :=
  mkMessage "hello"%string "om_1"%string "ou_1"%string false None "10:00:00"%string
            (Ok (Some "ses_1"%string)) (Ok tt).

Definition second_message : Message :=
  mkMessage "again"%string "om_2"%string "ou_1"%string false None "10:00:05"%string
            (Ok (Some "ses_x"%string)) (Err (mkError (Some 404) "Not Found"%string)).

Definition third_message : Message :=
  mkMessage "retry"%string "om_3"%string "ou_1"%string false None "10:00:09"%string
            (Ok (Some "ses_2"%string)) (Ok tt).

End Router.

(** ** Feishu receive paths: [startWebSocket] and [startWebhook] *)

Module Receive.

(** The message of an [im.message.receive_v1] event as the socket
    dispatcher types it. *)
Record WsEvent : Type := mkWs {
  ws_message_id : string;
  ws_chat_id : string;
  ws_open_id : option string;
  ws_content : string;
  ws_mentions : option (list string)
}.

(** The same event in a webhook body, where every field may be missing. *)
Record HookEvent : Type := mkHook {
  hk_message_id : option string;
  hk_chat_id : option string;
  hk_open_id : option string;
  hk_content : option string;
  hk_mentions : option (list string)
}.

Inductive Inbound : Type :=
  | Ws (e : WsEvent)
  | Hook (e : HookEvent).

(** What a receive path does, in order: the dedup check with its answer,
    the parse of the content, the call of the handler. *)
Inductive Action : Type :=
  | Dedup (messageId : string) (duplicate : bool)
  | Parse (content : option string)
  | OnMessage (chatId text messageId senderId : string).

Section Paths.

(** [parseAndCleanContent]: some function of the content and the mentions. *)
Variable parseAndCleanContent : option string → option (list string) → string.

(** The part both paths share once the ids are at hand. *)
Definition deliver (cache : list string) (chatId messageId : string)
    (open_id : option string) (content : option string) (mentions : option (list string))
  : list string * list Action :=
  let senderId := default EmptyString (js_or open_id (Some EmptyString)) in
  let r := Dedup.isMessageProcessed Dedup.Feishu cache messageId in
  if fst r then (snd r, [Dedup messageId true])
  else
    let text := parseAndCleanContent content mentions in
    if truthy text
    then (snd r, [Dedup messageId false; Parse content;
                  OnMessage chatId text messageId senderId])
    else (snd r, [Dedup messageId false; Parse content]).

Definition ws_receive (cache : list string) (e : WsEvent) : list string * list Action :=
  deliver cache (ws_chat_id e) (ws_message_id e) (ws_open_id e)
          (Some (ws_content e)) (ws_mentions e).

Definition hook_receive (cache : list string) (e : HookEvent) : list string * list Action :=
  if truthy_opt (hk_message_id e) && truthy_opt (hk_chat_id e)
  then deliver cache (default EmptyString (hk_chat_id e))
               (default EmptyString (hk_message_id e))
               (hk_open_id e) (hk_content e) (hk_mentions e)
  else (cache, []).

Definition receive (cache : list string) (i : Inbound) : list string * list Action :=
  match i with
  | Ws e => ws_receive cache e
  | Hook e => hook_receive cache e
  end.

Fixpoint run (cache : list string) (evs : list Inbound) : list string * list Action :=
  match evs with
  | [] => (cache, [])
  | i :: evs' =>
      let r := receive cache i in
      let r' := run (fst r) evs' in
      (fst r', snd r ++ snd r')
  end.

(** The text the parser gives for an inbound event. *)
Definition parsed (i : Inbound) : string :=
  match i with
  | Ws e => parseAndCleanContent (Some (ws_content e)) (ws_mentions e)
  | Hook e => parseAndCleanContent (hk_content e) (hk_mentions e)
  end.

End Paths.

Definition content_of (i : Inbound) : option string :=
  match i with
  | Ws e => Some (ws_content e)
  | Hook e => hk_content e
  end.

(** The external message id of an event that gets as far as the dedup
    check: always on the socket path, only with both ids present on the
    webhook path. *)
Definition checked_id (i : Inbound) : option string :=
  match i with
  | Ws e => Some (ws_message_id e)
  | Hook e =>
      if truthy_opt (hk_message_id e) && truthy_opt (hk_chat_id e)
      then hk_message_id e else None
  end.

(** The external message id an event carries. *)
Definition carried_id (i : Inbound) : option string :=
  match i with
  | Ws e => Some (ws_message_id e)
  | Hook e => hk_message_id e
  end.

Definition invoked_for (x : string) (a : Action) : bool :=
  match a with
  | OnMessage _ _ messageId _ => bool_decide (messageId = x)
  | _ => false
  end.

Definition is_on_message (a : Action) : bool :=
  match a with
  | OnMessage _ _ _ _ => true
  | _ => false
  end.

End Receive.

(** ** Global event listener: [startGlobalEventListener] *)

Module Listener.

(** The events of the backend stream the loop tells apart.  A
    [message.part.updated] event carries the part with its session and
    message ids and, beside it, the delta; the two session events carry a
    session id. *)
Inductive BackendEvent : Type :=
  | PartUpdated (sessionID : option string) (messageID : string)
                (part : Stream.Part) (delta : option string)
  | SessionDeleted (sessionID : option string)
  | SessionError (sessionID : option string)
  | OtherEvent.

(** An event with what the platform answers and what the clock shows while
    it is handled. *)
Record Tick : Type := mkTick {
  t_platform : Stream.Platform;
  t_now : Z;
  t_event : BackendEvent
}.

(** The module state the loop works on. *)
Record State : Type := mkState {
  sessionToFeishuMap : gmap string Router.SessionContext;
  messageBuffers : gmap string Stream.MessageBuffer;
  isListenerStarted : bool;
  shouldStopListener : bool
}.

(** The body of the [for await] loop for one event. *)
Definition on_event (st : State) (t : Tick) : State * list Stream.Outbound :=
  match t_event t with
  | PartUpdated sessionID msgId part delta =>
      if negb (truthy_opt sessionID) then (st, [])
      else
        match sessionToFeishuMap st !! default EmptyString sessionID with
        | None => (st, [])
        | Some context =>
            if Stream.is_text_or_reasoning (Stream.part_type part)
            then
              let r :=
                Stream.handleStreamUpdate (t_platform t) (t_now t) (messageBuffers st)
                  (Router.ctx_chatId context) msgId part delta in
              (mkState (sessionToFeishuMap st) (fst r)
                       (isListenerStarted st) (shouldStopListener st), snd r)
            else (st, [])
        end
  | SessionDeleted sid | SessionError sid =>
      if truthy_opt sid
      then (mkState (delete (default EmptyString sid) (sessionToFeishuMap st))
                    (messageBuffers st) (isListenerStarted st) (shouldStopListener st), [])
      else (st, [])
  | OtherEvent => (st, [])
  end.




(** The wait before the reconnect after a failure, [retryCount] failures
    having been counted before it. *)
Definition retry_delay (retryCount : Z) : Z := Z.min (5000 * (retryCount + 1)) 60000.

(** The waits of [n] failures in a row, counted from [retryCount]. *)
Fixpoint retry_delays (retryCount : Z) (n : nat) : list Z :=
  match n with
  | O => []
  | S n' => retry_delay retryCount :: retry_delays (retryCount + 1) n'
  end.


(** The state of a started listener with the handler's route table and
    given buffers. *)
Definition with_routes (routes : gmap string Router.SessionContext)
    (buffers : gmap string Stream.MessageBuffer) : State :=
  mkState routes buffers true false.

End Listener.

(** ** Reading the calls of the handler *)

Module Report.

Definition is_send (c : Router.Call) : bool :=
  match c with
  | Router.SendMessage _ _ => true
  | _ => false
  end.

Definition is_remove (c : Router.Call) : bool :=
  match c with
  | Router.RemoveReaction _ _ => true
  | _ => false
  end.

(** The messages the handler sent to the platform. *)
Definition sent (calls : list Router.Call) : list Router.Call := List.filter is_send calls.

(** The text of the diagnostic for an error. *)
Definition diagnostic (chatId : string) (e : Router.ApiError) : Router.Call :=
  Router.SendMessage chatId ("❌ Error: "%string +:+ Router.err_message e).

End Report.

(** ** Teams requests: the auth interceptor around a call *)

Module TeamsApi.

(** The [Authorization] header the interceptor writes
    ([undefined] prints as such in the template). *)
Definition bearer (c : Token.TeamsClient) : string :=
  "Bearer "%string +:+ default "undefined"%string (Token.accessToken c).

(** What one request through the client's [axios] instance comes to: the
    client afterwards, the refresh request posted on the way (if any), the
    header of the request that went out (if it did) and the outcome seen
    by the caller. *)
Record Exchange (A : Type) : Type := mkExchange {
  ex_client : Token.TeamsClient;
  ex_refresh : option Token.RefreshRequest;
  ex_sent : option string;
  ex_result : Outcome A
}.
Arguments mkExchange {A} _ _ _ _.
Arguments ex_client {A} _.
Arguments ex_refresh {A} _.
Arguments ex_sent {A} _.
Arguments ex_result {A} _.

(** One request made at time [now] with no other caller in between:
    [refresh] is what the token endpoint answers if it is asked, at time
    [later]; [network] is what the Graph endpoint answers if the request
    goes out. *)
Definition request {A : Type} (c : Token.TeamsClient) (now : Z)
    (refresh : Outcome Token.TokenResponse) (later : Z) (network : Outcome A)
  : Exchange A :=
  match Token.ensureValidToken c now with
  | Token.ReturnFresh | Token.ReturnAsIs => mkExchange c None (Some (bearer c)) network
  | Token.ThrowNoAccessToken => mkExchange c None None Threw
  | Token.StartRefresh =>
      match Token.refreshAccessToken_start c with
      | Threw => mkExchange c None None Threw
      | Returned rq =>
          match refresh with
          | Threw => mkExchange c (Some rq) None Threw
          | Returned r =>
              let c' := Token.refreshAccessToken_finish c refresh later in
              mkExchange c' (Some rq) (Some (bearer c')) network
          end
      end
  end.

(** [sendMessage] with its post going through the interceptor. *)
Definition sendMessage (c : Token.TeamsClient) (now : Z)
    (refresh : Outcome Token.TokenResponse) (later : Z)
    (chatId text : string) (network : Outcome (option string))
  : Exchange (option string) * Outcome Send.SendResult :=
  let ex := request c now refresh later network in
  (ex, Send.teams_sendMessage chatId text (ex_result ex)).

End TeamsApi.

(** ** Plugin configuration: [parseTeamsConfig] and [parseFeishuConfig] *)

Module Config.

(** The options of the agent node as the parsers read them. *)
Record TeamsOptions : Type := mkTeamsOptions {
  o_client_id : option string;
  o_client_secret : option string;
  o_tenant_id : option string;
  o_access_token : option string;
  o_refresh_token : option string;
  o_poll_interval_ms : option Z;
  o_target_user_id : option string
}.

Record ParsedTeams : Type := mkParsedTeams {
  teams : Token.TeamsConfig;
  poll_interval_ms : Z;
  target_user_id : option string
}.

Inductive ConfigError : Type :=
  | MissingClientId
  | MissingToken
  | MissingAppCredentials.

Definition number_or (o : option Z) (d : Z) : Z :=
  match o with
  | Some n => if bool_decide (n = 0) then d else n
  | None => d
  end.

Definition parseTeamsConfig (o : TeamsOptions) : ConfigError + ParsedTeams :=
  if negb (truthy_opt (o_client_id o)) then inl MissingClientId
  else if negb (truthy_opt (o_access_token o)) && negb (truthy_opt (o_refresh_token o))
  then inl MissingToken
  else
    inr (mkParsedTeams
           (Token.mkConfig (default EmptyString (o_client_id o))
                           (o_client_secret o)
                           (js_or (o_tenant_id o) (Some "common"%string))
                           (o_access_token o)
                           (o_refresh_token o))
           (number_or (o_poll_interval_ms o) 3000)
           (o_target_user_id o)).

Record FeishuOptions : Type := mkFeishuOptions {
  f_app_id : option string;
  f_app_secret : option string;
  f_mode : option string;
  f_callback_url : option string;
  f_encrypt_key : option string;
  f_tenant_token : option string;
  f_disable_token_cache : option bool
}.

Record FeishuConfig : Type := mkFeishuConfig {
  app_id : string;
  app_secret : string;
  mode : string;
  callback_url : option string;
  encrypt_key : option string;
  tenant_token : option string;
  disable_token_cache : option bool
}.

(** The normalisation of [callback_url]: a non-empty string is kept when
    it starts with ["http"] and gets ["http://"] in front otherwise. *)
Definition callbackUrl (raw : option string) : option string :=
  match raw with
  | Some s =>
      if truthy s
      then Some (if String.prefix "http"%string s then s else "http://"%string +:+ s)
      else None
  | None => None
  end.

Definition parseFeishuConfig (o : FeishuOptions) : ConfigError + FeishuConfig :=
  if negb (truthy_opt (f_app_id o)) || negb (truthy_opt (f_app_secret o))
  then inl MissingAppCredentials
  else
    inr (mkFeishuConfig (default EmptyString (f_app_id o))
                        (default EmptyString (f_app_secret o))
                        (default EmptyString (js_or (f_mode o) (Some "ws"%string)))
                        (callbackUrl (f_callback_url o))
                        (f_encrypt_key o)
                        (f_tenant_token o)
                        (f_disable_token_cache o)).

(** The options a parsed Feishu configuration writes back. *)
Definition feishu_options (c : FeishuConfig) : FeishuOptions :=
  mkFeishuOptions (Some (app_id c)) (Some (app_secret c)) (Some (mode c))
                  (callback_url c) (encrypt_key c) (tenant_token c)
                  (disable_token_cache c).

(** A refresh can be made: the guard of the refresh branch. *)
Definition can_refresh (c : Token.TeamsClient) : Prop :=
  truthy_opt (Token.refreshToken c) = true
  ∧ truthy (Token.client_id (Token.config c)) = true.

(** What no event undoes: an access token is set or a refresh can be
    made, and a refresh is in flight only where one can be made. *)
Definition token_available (s : Token.Sys) : Prop :=
  (truthy_opt (Token.accessToken (Token.client s)) = true ∨ can_refresh (Token.client s))
  ∧ (Token.in_flight s = [] ∨ can_refresh (Token.client s)).

End Config.

(** ** Waiting for the reply: the polling loop of the queued handler *)

Module Reply.

(** [info.error] of the last message. *)
Inductive InfoError : Type :=
  | NoError
  | ErrorText (s : string)
  | ErrorObject (message : option string).

(** The fields of the last message the loop reads; [reply] is the text of
    its text parts, joined by line breaks and trimmed (empty when it has
    no parts). *)
Record Item : Type := mkItem {
  info_error : InfoError;
  info_status : option string;
  info_role : option string;
  reply : string
}.

(** What one call of [getMessages] gives: the listed messages, or a throw
    with its message. *)
Inductive Fetch : Type :=
  | Fetched (messages : list Item)
  | FetchFailed (message : option string).

Definition maxAttempts : nat := 60.
Definition SLEEP_MS : Z := 1500.

(** [if (info.error)] with the message that is thrown. *)
Definition error_of (e : InfoError) : option string :=
  match e with
  | NoError => None
  | ErrorText s => if truthy s then Some s else None
  | ErrorObject message => Some (default "undefined"%string message)
  end.

Definition isCompleted (i : Item) : bool :=
  bool_decide (info_status i = Some "completed"%string).

Definition isAssistant (i : Item) : bool :=
  bool_decide (info_role i = Some "assistant"%string).

(** How the [while] loop ends: by [break] with the reply, by its
    condition, or by a throw; each with the attempts made. *)
Inductive LoopEnd : Type :=
  | Broke (attempts : nat) (replyText : string)
  | RanOut (attempts : nat)
  | Raised (attempts : nat) (message : option string).

(** The loop with [fuel] iterations left; [answers k] is what the [k]-th
    call of [getMessages] gives. *)
Fixpoint poll_loop (fuel attempts : nat) (answers : nat → Fetch) : LoopEnd :=
  match fuel with
  | O => RanOut attempts
  | S fuel' =>
      let attempts' := S attempts in
      match answers attempts' with
      | FetchFailed message => Raised attempts' message
      | Fetched messages =>
          match last messages with
          | None => poll_loop fuel' attempts' answers
          | Some lastItem =>
              match error_of (info_error lastItem) with
              | Some errMsg => Raised attempts' (Some ("AI Error: "%string +:+ errMsg))
              | None =>
                  if isAssistant lastItem && isCompleted lastItem
                  then Broke attempts' (reply lastItem)
                  else poll_loop fuel' attempts' answers
              end
          end
      end
  end.

Definition await_reply (answers : nat → Fetch) : LoopEnd :=
  poll_loop maxAttempts 0 answers.

Definition attempts_of (e : LoopEnd) : nat :=
  match e with
  | Broke a _ | RanOut a | Raised a _ => a
  end.

Definition TIMEOUT_TEXT : string := "❌ AI Response Timeout (90s)".
Definition EMPTY_TEXT : string := "(Empty Response)".

(** The one message sent to the chat once the loop is over. *)
Definition final_message (e : LoopEnd) : string :=
  match e with
  | Broke attempts replyText =>
      if bool_decide (maxAttempts ≤ attempts)%nat then TIMEOUT_TEXT
      else if truthy replyText then replyText else EMPTY_TEXT
  | RanOut _ => TIMEOUT_TEXT
  | Raised _ message =>
      "⚠️ Error: "%string
      +:+ (if truthy_opt message then default EmptyString message
           else "Unknown error"%string)
  end.

(** A poll that leaves the loop going: no message yet, or a last message
    without error that is not a completed assistant message. *)
Definition pending (f : Fetch) : bool :=
  match f with
  | FetchFailed _ => false
  | Fetched messages =>
      match last messages with
      | None => true
      | Some i =>
          match error_of (info_error i) with
          | Some _ => false
          | None => negb (isAssistant i && isCompleted i)
          end
      end
  end.

(** A poll that shows the completed reply [text]. *)
Definition completes (f : Fetch) (text : string) : Prop :=
  ∃ messages i, f = Fetched messages ∧ last messages = Some i
                ∧ error_of (info_error i) = None
                ∧ isAssistant i && isCompleted i = true
                ∧ reply i = text.

End Reply.

(** ** Resource download: [fetchFeishuResourceToBuffer] *)

Module Resource.

(** The response as the function reads it: the status, the
    [content-length] header as [Number] makes it ([None] when the header
    is missing or no number), the [content-type] header and the body. *)
Record Response : Type := mkResponse {
  status : option Z;
  content_length : option Z;
  content_type : option string;
  data : list Byte.byte
}.

Inductive FetchError : Type :=
  | HttpError (status : Z)
  | ContentTooLarge.

Record Fetched : Type := mkFetched {
  buffer : list Byte.byte;
  mime : option string
}.

Definition fetchFeishuResourceToBuffer (mime_of : option string → option string)
    (maxBytes : Z) (res : Response) : FetchError + Fetched :=
  let status := Config.number_or (status res) 0 in
  if bool_decide (status < 200) || bool_decide (300 ≤ status)
  then inl (HttpError status)
  else
    let contentLength := Config.number_or (content_length res) 0 in
    if negb (bool_decide (contentLength = 0)) && bool_decide (maxBytes < contentLength)
    then inl ContentTooLarge
    else if bool_decide (maxBytes < Z.of_nat (length (data res)))
    then inl ContentTooLarge
    else inr (mkFetched (data res) (mime_of (content_type res))).

End Resource.

(** ** The webhook server: one request of [startWebhook] *)

Module Webhook.

(** What the request listener reads of the parsed body. *)
Record Body : Type := mkBody {
  b_encrypt : option string;
  b_type : option string;
  b_challenge : option string;
  b_event_type : option string;
  b_event : option Receive.HookEvent
}.

(** What is written to the response. *)
Inductive Reply : Type :=
  | MethodNotAllowed
  | EmptyReply
  | ServerError
  | Challenge (challenge : option string)
  | Accepted
  | PlainOk.

Section Request.

(** [JSON.parse] ([None] when it throws or gives [null]), [decryptEvent]
    ([None] when it throws), the configured key, and the content parser. *)
Variable parse_json : string → option Body.
Variable decryptEvent : string → string → option string.
Variable encryptKey : option string.
Variable parseAndCleanContent : option string → option (list string) → string.

(** The body after the decryption step, or the failure of that step. *)
Definition decrypted (body : Body) : option Body :=
  if truthy_opt (b_encrypt body) && truthy_opt encryptKey
  then
    match decryptEvent (default EmptyString (b_encrypt body))
                       (default EmptyString encryptKey) with
    | Some text => parse_json text
    | None => None
    end
  else Some body.

(** One request: the reply, the dedup cache afterwards and what the
    receive path did. *)
Definition handle_request (cache : list string) (is_post : bool) (rawBody : string)
  : Reply * list string * list Receive.Action :=
  if negb is_post then (MethodNotAllowed, cache, [])
  else if negb (truthy rawBody) then (EmptyReply, cache, [])
  else
    match parse_json rawBody with
    | None => (ServerError, cache, [])
    | Some body0 =>
        match decrypted body0 with
        | None => (ServerError, cache, [])
        | Some body =>
            if bool_decide (b_type body = Some "url_verification"%string)
            then (Challenge (b_challenge body), cache, [])
            else if bool_decide (b_event_type body = Some "im.message.receive_v1"%string)
            then
              match b_event body with
              | Some event =>
                  let r := Receive.hook_receive parseAndCleanContent cache event in
                  (Accepted, fst r, snd r)
              | None => (Accepted, cache, [])
              end
            else (PlainOk, cache, [])
        end
    end.

End Request.

End Webhook.

(** ** Teams polling: one pass of [startPolling] over a chat *)

Module Polling.

(** A chat message as the poll loop reads it. *)
Record TeamsMessage : Type := mkMessage {
  msg_id : string;
  createdDateTime : string;
  from_user_id : option string;
  body_contentType : option string;
  body_content : option string
}.

(** A call of the handler. *)
Record Call : Type := mkCall {
  c_chatId : string;
  c_text : string;
  c_messageId : string;
  c_senderId : string
}.

(** What a pass over the messages of one chat leaves: the dedup cache, the
    ids it checked, the handler calls it made, the last-seen table, and
    whether a throw of the handler cut it short. *)
Record Pass : Type := mkPass {
  p_cache : list string;
  p_checked : list string;
  p_calls : list Call;
  p_lastSeen : gmap string string;
  p_aborted : bool
}.

Section Poll.

(** [extractTextContent], and whether the handler throws on a message. *)
Variable extractTextContent : TeamsMessage → string.
Variable handler_throws : TeamsMessage → bool.

Definition call_of (chatId : string) (msg : TeamsMessage) : Call :=
  mkCall chatId (extractTextContent msg) (msg_id msg)
         (default EmptyString (from_user_id msg)).

(** The tests of the loop body after the dedup check: the message is newer
    than the last seen one, comes from a user and has text. *)
Definition wanted (lastSeen : option string) (msg : TeamsMessage) : bool :=
  negb (truthy_opt lastSeen
        && String.leb (createdDateTime msg) (default EmptyString lastSeen))
  && truthy_opt (from_user_id msg)
  && truthy (extractTextContent msg).

(** The [for] loop over the (already reversed) messages: the cache, the
    ids checked, the calls made, and whether the handler threw. *)
Fixpoint deliver_all (chatId : string) (lastSeen : option string)
    (cache : list string) (msgs : list TeamsMessage)
  : list string * list string * list Call * bool :=
  match msgs with
  | [] => (cache, [], [], false)
  | msg :: rest =>
      let r := Dedup.isMessageProcessed Dedup.Teams cache (msg_id msg) in
      if fst r then
        let '(cache', checked, calls, threw) := deliver_all chatId lastSeen (snd r) rest in
        (cache', msg_id msg :: checked, calls, threw)
      else if negb (wanted lastSeen msg) then
        let '(cache', checked, calls, threw) := deliver_all chatId lastSeen (snd r) rest in
        (cache', msg_id msg :: checked, calls, threw)
      else if handler_throws msg then
        (snd r, [msg_id msg], [call_of chatId msg], true)
      else
        let '(cache', checked, calls, threw) := deliver_all chatId lastSeen (snd r) rest in
        (cache', msg_id msg :: checked, call_of chatId msg :: calls, threw)
  end.

(** One pass over the messages fetched for a chat (newest first, as the
    request orders them).  [reverse] turns the array over in place, so the
    [messages[0]] stored as last seen is the last of the fetched list. *)
Definition poll_chat (chatId : string) (lastSeenMap : gmap string string)
    (cache : list string) (messages : list TeamsMessage) : Pass :=
  let reversed := reverse messages in
  let '(cache', checked, calls, threw) :=
    deliver_all chatId (lastSeenMap !! chatId) cache reversed in
  if threw then mkPass cache' checked calls lastSeenMap true
  else
    mkPass cache' checked calls
           (match head reversed with
            | Some first => <[chatId := createdDateTime first]> lastSeenMap
            | None => lastSeenMap
            end)
           false.

End Poll.

(** Two fetched messages of a chat, newest first: a user's question and,
    before it, a message without a sender (as the bot's own are). *)
Definition question : TeamsMessage :=
  mkMessage "m2"%string "2026-01-01T10:00:05Z"%string (Some "user-1"%string)
            (Some "text"%string) (Some "hello"%string).

Definition own_message : TeamsMessage :=
  mkMessage "m1"%string "2026-01-01T10:00:00Z"%string None
            (Some "text"%string) (Some "earlier"%string).

(** A text extraction for plain-text bodies. *)
Definition plain_text (msg : TeamsMessage) : string :=
  default EmptyString (body_content msg).

End Polling.

(** * Properties *)

Lemma truthy_true (s : string) : truthy s = true ↔ s ≠ EmptyString.
Proof. unfold truthy. destruct (decide (s = EmptyString)); naive_solver. Qed.

Lemma truthy_false (s : string) : truthy s = false ↔ s = EmptyString.
Proof. unfold truthy. destruct (decide (s = EmptyString)); naive_solver. Qed.

(** ** The dedup cache *)

Lemma has_true (s : list string) (x : string) : Dedup.has s x = true ↔ x ∈ s.
Proof. unfold Dedup.has. rewrite bool_decide_eq_true. done. Qed.

Lemma has_false (s : list string) (x : string) : Dedup.has s x = false ↔ x ∉ s.
Proof. unfold Dedup.has. rewrite bool_decide_eq_false. done. Qed.

(** Both clients evict the same member: the head of a set that has one. *)
Lemma evicted_head (c : Dedup.Client) (a : string) (s : list string) :
  Dedup.delete_opt (a :: s) (Dedup.evicted c (a :: s)) = Dedup.delete (a :: s) a.
Proof.
  destruct c; simpl; [|done].
  unfold js_or; simpl. destruct (truthy a) eqn:E; simpl; [done|].
  apply truthy_false in E. by subst.
Qed.

Lemma delete_absent (s : list string) (a : string) : a ∉ s → Dedup.delete s a = s.
Proof.
  intros Ha. unfold Dedup.delete. induction s as [|b s IH]; [done|].
  apply not_elem_of_cons in Ha as [Hab Has].
  rewrite filter_cons_True; [|congruence]. by rewrite IH.
Qed.

Lemma delete_head (s : list string) (a : string) :
  a ∉ s → Dedup.delete (a :: s) a = s.
Proof.
  intros Ha. unfold Dedup.delete. rewrite filter_cons_False; [|naive_solver].
  by apply delete_absent.
Qed.

Lemma elem_of_delete (s : list string) (a x : string) :
  x ∈ Dedup.delete s a ↔ x ∈ s ∧ x ≠ a.
Proof. unfold Dedup.delete. rewrite list_elem_of_filter. tauto. Qed.

Lemma isMessageProcessed_present (c : Dedup.Client) (s : list string) (x : string) :
  x ∈ s → Dedup.isMessageProcessed c s x = (true, s).
Proof. intros Hx. unfold Dedup.isMessageProcessed. apply has_true in Hx. by rewrite Hx. Qed.

(** An absent id is answered [false] and is a member afterwards. *)
Lemma isMessageProcessed_absent (c : Dedup.Client) (s : list string) (x : string) :
  x ∉ s →
  fst (Dedup.isMessageProcessed c s x) = false
  ∧ x ∈ snd (Dedup.isMessageProcessed c s x).
Proof.
  intros Hx. unfold Dedup.isMessageProcessed, Dedup.add.
  apply has_false in Hx as Hh. rewrite Hh.
  destruct (bool_decide (Dedup.CEILING < Dedup.size (s ++ [x]))) eqn:Hsz; simpl;
    [|split; [done|apply elem_of_app; right; by apply list_elem_of_singleton]].
  apply bool_decide_eq_true in Hsz.
  split; [done|].
  destruct s as [|a s].
  - unfold Dedup.size, Dedup.CEILING in Hsz. simpl in Hsz. lia.
  - change ((a :: s) ++ [x]) with (a :: (s ++ [x])).
    rewrite evicted_head. apply elem_of_delete. split.
    + right. apply elem_of_app. right. by apply list_elem_of_singleton.
    + intros ->. apply Hx. by left.
Qed.

(** The step on a set without repetitions, in closed form. *)
Lemma isMessageProcessed_step (c : Dedup.Client) (s : list string) (x : string) :
  NoDup s →
  Dedup.isMessageProcessed c s x =
    if Dedup.has s x then (true, s)
    else (false, if bool_decide (Dedup.size s < Dedup.CEILING)
                 then s ++ [x] else tail s ++ [x]).
Proof.
  intros Hnd. unfold Dedup.isMessageProcessed, Dedup.add.
  destruct (Dedup.has s x) eqn:Hh; [done|].
  apply has_false in Hh.
  unfold Dedup.size, Dedup.CEILING. rewrite length_app. simpl.
  repeat case_bool_decide; try lia; try done.
  destruct s as [|a s]; [simpl in *; lia|].
  change ((a :: s) ++ [x]) with (a :: (s ++ [x])).
  rewrite evicted_head. simpl. f_equal.
  apply delete_head. apply NoDup_cons in Hnd as [Ha _].
  intros [Hin|Hin%list_elem_of_singleton]%elem_of_app; [done|].
  subst. apply Hh. by left.
Qed.

Lemma isMessageProcessed_NoDup (c : Dedup.Client) (s : list string) (x : string) :
  NoDup s → NoDup (snd (Dedup.isMessageProcessed c s x)).
Proof.
  intros Hnd. rewrite isMessageProcessed_step by done.
  destruct (Dedup.has s x) eqn:Hh; [done|]. apply has_false in Hh. simpl.
  assert (NoDup (s ++ [x])) as Hnd'.
  { apply NoDup_app. split; [done|]. split; [|apply NoDup_singleton].
    intros y Hy ->%list_elem_of_singleton. done. }
  case_bool_decide; [done|].
  destruct s as [|a s]; [done|]. simpl in *. by apply NoDup_cons in Hnd' as [_ ?].
Qed.

Lemma dedup_inv_step (c : Dedup.Client) (s log : list string) (x : string) :
  Dedup.inv s log →
  Dedup.inv (snd (Dedup.isMessageProcessed c s x))
            (log ++ (if fst (Dedup.isMessageProcessed c s x) then [] else [x])).
Proof.
  intros [Hnd Hs]. split; [by apply isMessageProcessed_NoDup|].
  rewrite isMessageProcessed_step by done.
  destruct (Dedup.has s x) eqn:Hh; simpl; [by rewrite app_nil_r|].
  unfold Dedup.size, Dedup.CEILING. rewrite length_app. simpl.
  assert (length s = length log - (length log - 2000))%nat as Hlen.
  { rewrite Hs at 1. by rewrite length_drop. }
  destruct (bool_decide (Z.of_nat (length s) < 2000)) eqn:Hsz;
    [apply bool_decide_eq_true in Hsz | apply bool_decide_eq_false in Hsz].
  - assert (length log - 2000 = 0)%nat as Hk by lia.
    assert (length log + 1 - 2000 = 0)%nat as -> by lia.
    rewrite Hk, drop_0 in Hs. by subst.
  - assert (length log + 1 - 2000 = S (length log - 2000))%nat as -> by lia.
    rewrite drop_app_le by lia.
    rewrite Hs at 1. f_equal.
    generalize (length log - 2000)%nat as k. intros k.
    clear. revert log. induction k as [|k IH]; intros [|a log]; simpl; try done.
Qed.

Lemma dedup_inv_run (c : Dedup.Client) (ids s log : list string) :
  Dedup.inv s log →
  Dedup.inv (Dedup.run_from c s ids) (log ++ Dedup.inserted_from c s ids).
Proof.
  revert s log. induction ids as [|x ids IH]; intros s log Hinv; simpl.
  - by rewrite app_nil_r.
  - rewrite app_assoc. apply IH. by apply dedup_inv_step.
Qed.

Lemma dedup_inv_size (s log : list string) :
  Dedup.inv s log → Dedup.size s ≤ Dedup.CEILING.
Proof.
  intros [_ ->]. unfold Dedup.size, Dedup.CEILING. rewrite length_drop. lia.
Qed.

(** C5.  In either client, the dedup check on an id [X] that is not in the
    set answers [false] and inserts [X]; from then on, after any further
    checks, a check of [X] answers [true] and leaves the set as it is for
    as long as [X] is still a member, and answers [false] again only once
    [X] has been evicted. *)
Theorem dedup_false_once_then_true (c : Dedup.Client) (s : list string) (X : string) :
  X ∉ s →
  let r1 := Dedup.isMessageProcessed c s X in
  fst r1 = false
  ∧ X ∈ snd r1
  ∧ Dedup.isMessageProcessed c (snd r1) X = (true, snd r1)
  ∧ ∀ ids : list string,
      let s2 := Dedup.run_from c (snd r1) ids in
      (X ∈ s2 → Dedup.isMessageProcessed c s2 X = (true, s2))
      ∧ (X ∉ s2 → fst (Dedup.isMessageProcessed c s2 X) = false).
Proof.
  intros Hx r1.
  destruct (isMessageProcessed_absent c s X Hx) as [Hf Hin].
  repeat split; try done.
  - by apply isMessageProcessed_present.
  - by apply isMessageProcessed_present.
  - intros Hout. by apply isMessageProcessed_absent.
Qed.

Lemma dedup_false_once_then_true_witness :
  ("m2"%string ∉ ["m1"%string])
  ∧ Dedup.isMessageProcessed Dedup.Teams ["m1"%string] "m2"%string
    = (false, ["m1"%string; "m2"%string])
  ∧ Dedup.isMessageProcessed Dedup.Teams ["m1"%string; "m2"%string] "m2"%string
    = (true, ["m1"%string; "m2"%string]).
Proof.
  assert ("m2"%string ∉ ["m1"%string]) as Hx.
  { intros H%list_elem_of_singleton. discriminate H. }
  split; [exact Hx|]. split; [reflexivity|].
  exact (proj1 (proj2 (proj2 (dedup_false_once_then_true Dedup.Teams _ _ Hx)))).
Defined.

(** C6.  After any sequence of dedup checks from the empty set, in either
    client, the set holds at most 2000 ids without repetition, and it is
    exactly the last 2000 inserted ids in insertion order; a further check
    of a present id changes nothing (its position included), a check of an
    absent id appends it and, when the set is full, drops exactly the
    head, the id inserted longest ago among those still held. *)
Theorem dedup_bounded_evicts_oldest (c : Dedup.Client) (ids : list string) :
  let s := Dedup.run c ids in
  let ins := Dedup.inserted c ids in
  Dedup.size s ≤ Dedup.CEILING
  ∧ NoDup s
  ∧ s = drop (length ins - 2000)%nat ins
  ∧ ∀ x : string,
      Dedup.isMessageProcessed c s x =
        if Dedup.has s x then (true, s)
        else (false, if bool_decide (Dedup.size s < Dedup.CEILING)
                     then s ++ [x] else tail s ++ [x]).
Proof.
  intros s ins.
  assert (Dedup.inv s ins) as Hinv.
  { apply (dedup_inv_run c ids [] []). split; [apply NoDup_nil_2|done]. }
  split; [by eapply dedup_inv_size|].
  destruct Hinv as [Hnd Hs]. repeat split; try done.
  intros x. by apply isMessageProcessed_step.
Qed.


(** Filling the set past the ceiling drops the first id; seeing ["5"]
    again moves nothing; inserting ["0"] again then drops ["1"]. *)
Example dedup_overflow :
  Dedup.run Dedup.Teams (Dedup.numbered 2001 ++ ["5"%string; "0"%string])
  = drop 2 (Dedup.numbered 2001) ++ ["0"%string].
Proof. vm_compute. reflexivity. Qed.

(** ** The stream aggregation buffer *)

Lemma string_length_app (a b : string) :
  String.length (a +:+ b) = (String.length a + String.length b)%nat.
Proof. induction a as [|ch a IH]; simpl; [done|]. by rewrite IH. Qed.

Lemma accumulate_delta (content d : string) (text : option string) :
  d ≠ EmptyString → Stream.accumulate content (Some d) text = content +:+ d.
Proof. intros Hd. unfold Stream.accumulate. simpl. by apply truthy_true in Hd as ->. Qed.

Lemma accumulate_snapshot (content t : string) (delta : option string) :
  truthy_opt delta = false →
  Stream.accumulate content delta (Some t) =
    if bool_decide (String.length content ≤ String.length t)%nat then t else content.
Proof.
  intros Hd. unfold Stream.accumulate. rewrite Hd.
  repeat case_bool_decide; (done || lia).
Qed.

Lemma accumulate_none (content : string) (delta : option string) :
  truthy_opt delta = false → Stream.accumulate content delta None = content.
Proof. intros Hd. unfold Stream.accumulate. by rewrite Hd. Qed.

Lemma accumulate_length (content : string) (delta text : option string) :
  (String.length content ≤ String.length (Stream.accumulate content delta text))%nat.
Proof.
  unfold Stream.accumulate. destruct (truthy_opt delta).
  - rewrite string_length_app. lia.
  - destruct text as [t|]; [|done]. case_bool_decide; lia.
Qed.

Lemma fullContent_before (buffers : gmap string Stream.MessageBuffer)
    (msgId : string) (part : Stream.Part) :
  Stream.fullContent (Stream.buffer_before buffers msgId part)
  = Stream.content_of buffers msgId.
Proof. unfold Stream.buffer_before, Stream.content_of. by destruct (buffers !! msgId). Qed.

Lemma flush_fullContent (p : Stream.Platform) (chatId : string)
    (b : Stream.MessageBuffer) (now : Z) :
  Stream.fullContent (fst (Stream.flush p chatId b now)) = Stream.fullContent b.
Proof.
  unfold Stream.flush. simpl. destruct (truthy_opt (Stream.feishuMsgId b)); simpl; [done|].
  destruct (Stream.send_outcome p) as [sentId|]; [|done].
  by destruct (truthy_opt sentId).
Qed.

(** The content held for any message id after one call. *)
Lemma handleStreamUpdate_content (p : Stream.Platform) (now : Z)
    (buffers : gmap string Stream.MessageBuffer) (chatId msgId : string)
    (part : Stream.Part) (delta : option string) (m : string) :
  Stream.content_of
    (fst (Stream.handleStreamUpdate p now buffers chatId msgId part delta)) m =
  if bool_decide (m = msgId) && truthy msgId
     && Stream.is_text_or_reasoning (Stream.part_type part)
  then Stream.accumulate (Stream.content_of buffers msgId) delta (Stream.part_text part)
  else Stream.content_of buffers m.
Proof.
  unfold Stream.handleStreamUpdate.
  destruct (truthy msgId); simpl; [|by rewrite andb_false_r].
  destruct (Stream.is_text_or_reasoning (Stream.part_type part)); simpl;
    [|by rewrite andb_false_r].
  rewrite andb_true_r.
  rewrite fullContent_before.
  unfold Stream.content_of at 1.
  match goal with |- context [if ?c then _ else _] => destruct c end; simpl.
  - case_bool_decide as Hm.
    + subst m. rewrite lookup_insert_eq. by rewrite flush_fullContent.
    + by rewrite lookup_insert_ne.
  - case_bool_decide as Hm.
    + subst m. by rewrite lookup_insert_eq.
    + by rewrite lookup_insert_ne.
Qed.

Lemma handleStreamUpdate_length (p : Stream.Platform) (now : Z)
    (buffers : gmap string Stream.MessageBuffer) (chatId msgId : string)
    (part : Stream.Part) (delta : option string) (m : string) :
  (String.length (Stream.content_of buffers m)
   ≤ String.length
       (Stream.content_of
          (fst (Stream.handleStreamUpdate p now buffers chatId msgId part delta)) m))%nat.
Proof.
  rewrite handleStreamUpdate_content.
  match goal with |- context [if ?c then _ else _] => destruct c eqn:Hc end; [|done].
  apply andb_true_iff in Hc as [[Hm%bool_decide_eq_true _]%andb_true_iff _]. subst m.
  apply accumulate_length.
Qed.

Lemma run_length (fs : list Stream.Fragment)
    (buffers : gmap string Stream.MessageBuffer) (m : string) :
  (String.length (Stream.content_of buffers m)
   ≤ String.length (Stream.content_of (fst (Stream.run buffers fs)) m))%nat.
Proof.
  revert buffers. induction fs as [|f fs IH]; intros buffers; simpl; [done|].
  etrans; [|apply IH]. apply handleStreamUpdate_length.
Qed.

(** C3.  On a fragment for a backend message id (a call that passes the
    guards), a non-empty delta is appended to the accumulated content;
    without one, a snapshot replaces the content when it is at least as
    long and is dropped when it is shorter.  Over any sequence of
    fragments the length of the content held for a message never
    decreases.  Deltas "Hel", "lo " and the snapshot "Hello world" give
    "Hello world", and a later snapshot "Hi" leaves it. *)
Theorem stream_content_never_shrinks
    (p : Stream.Platform) (now : Z) (buffers : gmap string Stream.MessageBuffer)
    (chatId msgId : string) (part : Stream.Part) (delta : option string)
    (Hid : truthy msgId = true)
    (Hty : Stream.is_text_or_reasoning (Stream.part_type part) = true) :
  let old := Stream.content_of buffers msgId in
  let new :=
    Stream.content_of
      (fst (Stream.handleStreamUpdate p now buffers chatId msgId part delta)) msgId in
  (∀ d, delta = Some d → d ≠ EmptyString → new = old +:+ d)
  ∧ (truthy_opt delta = false →
     match Stream.part_text part with
     | Some t =>
         ((String.length old ≤ String.length t)%nat → new = t)
         ∧ ((String.length t < String.length old)%nat → new = old)
     | None => new = old
     end)
  ∧ (∀ (fs : list Stream.Fragment) (m : string),
       (String.length (Stream.content_of buffers m)
        ≤ String.length (Stream.content_of (fst (Stream.run buffers fs)) m))%nat)
  ∧ (∀ t1 t2 t3 t4 : Z,
       let frag n d t :=
         Stream.mkFragment p n chatId msgId (Stream.mkPart Stream.PText t) d in
       let b3 :=
         fst (Stream.run ∅ [frag t1 (Some "Hel"%string) None;
                            frag t2 (Some "lo "%string) None;
                            frag t3 None (Some "Hello world"%string)]) in
       Stream.content_of b3 msgId = "Hello world"%string
       ∧ Stream.content_of
           (fst (Stream.run b3 [frag t4 None (Some "Hi"%string)])) msgId
         = "Hello world"%string).
Proof.
  intros old new. subst old new. rewrite handleStreamUpdate_content.
  rewrite Hid, Hty, bool_decide_eq_true_2 by done. simpl.
  split; [|split; [|split]].
  - intros d -> Hd. by apply accumulate_delta.
  - intros Hd. destruct (Stream.part_text part) as [t|].
    + rewrite accumulate_snapshot by done. split; intros Hlen.
      * by rewrite bool_decide_eq_true_2.
      * rewrite bool_decide_eq_false_2; [done|lia].
    + by apply accumulate_none.
  - intros fs m. apply run_length.
  - intros t1 t2 t3 t4. simpl. unfold Stream.step. simpl.
    rewrite !handleStreamUpdate_content. simpl.
    rewrite Hid, bool_decide_eq_true_2 by done. simpl.
    unfold Stream.content_of. rewrite lookup_empty. done.
Qed.

Lemma stream_content_never_shrinks_witness :
  truthy "msg_1"%string = true
  ∧ Stream.is_text_or_reasoning Stream.PText = true
  ∧ Stream.content_of
      (fst (Stream.handleStreamUpdate
              (Stream.mkPlatform (Returned (Some "om_1"%string)) (Returned true)) 5000
              {[ "msg_1"%string := Stream.mkBuffer (Some "om_1"%string) "Hello world"%string
                                     Stream.PText 4000 false ]}
              "oc_1"%string "msg_1"%string
              (Stream.mkPart Stream.PText (Some "Hi"%string)) None))
      "msg_1"%string
    = "Hello world"%string.
Proof.
  split; [reflexivity|]. split; [reflexivity|].
  pose proof (proj1 (proj2 (stream_content_never_shrinks
           (Stream.mkPlatform (Returned (Some "om_1"%string)) (Returned true)) 5000
           {[ "msg_1"%string := Stream.mkBuffer (Some "om_1"%string) "Hello world"%string
                                  Stream.PText 4000 false ]}
           "oc_1"%string "msg_1"%string
           (Stream.mkPart Stream.PText (Some "Hi"%string)) None
           eq_refl eq_refl)) eq_refl) as H.
  simpl in H. apply (proj2 H). vm_compute. lia.
Defined.

(** The calls of one update, in closed form. *)
Lemma handleStreamUpdate_calls (p : Stream.Platform) (now : Z)
    (buffers : gmap string Stream.MessageBuffer) (chatId msgId : string)
    (part : Stream.Part) (delta : option string) :
  truthy msgId = true →
  Stream.is_text_or_reasoning (Stream.part_type part) = true →
  let b0 := Stream.buffer_before buffers msgId part in
  let b1 :=
    Stream.mkBuffer (Stream.feishuMsgId b0)
      (Stream.accumulate (Stream.fullContent b0) delta (Stream.part_text part))
      (Stream.type b0) (Stream.lastUpdateTime b0) (Stream.isFinished b0) in
  snd (Stream.handleStreamUpdate p now buffers chatId msgId part delta) =
    if Stream.shouldUpdate b1 now && truthy (Stream.fullContent b1)
    then
      if truthy_opt (Stream.feishuMsgId b0)
      then [Stream.EditMessage chatId (default EmptyString (Stream.feishuMsgId b0))
              (Stream.displayContent b1)]
      else [Stream.SendMessage chatId (Stream.displayContent b1)]
    else [].
Proof.
  intros Hid Hty b0 b1. unfold Stream.handleStreamUpdate. rewrite Hid, Hty. simpl.
  fold b0. fold b1.
  match goal with |- context [if ?c then _ else _] => destruct c end; [|done].
  simpl. unfold Stream.flush. simpl.
  by destruct (truthy_opt (Stream.feishuMsgId b0)).
Qed.

(** A call that fails a guard makes no platform call. *)
Lemma handleStreamUpdate_guarded (p : Stream.Platform) (now : Z)
    (buffers : gmap string Stream.MessageBuffer) (chatId msgId : string)
    (part : Stream.Part) (delta : option string) :
  truthy msgId && Stream.is_text_or_reasoning (Stream.part_type part) = false →
  Stream.handleStreamUpdate p now buffers chatId msgId part delta = (buffers, []).
Proof.
  intros H. unfold Stream.handleStreamUpdate.
  destruct (truthy msgId); simpl in *; [|done]. by rewrite H.
Qed.

Lemma handleStreamUpdate_at_most_one (p : Stream.Platform) (now : Z)
    (buffers : gmap string Stream.MessageBuffer) (chatId msgId : string)
    (part : Stream.Part) (delta : option string) :
  (length (snd (Stream.handleStreamUpdate p now buffers chatId msgId part delta)) ≤ 1)%nat.
Proof.
  destruct (truthy msgId && Stream.is_text_or_reasoning (Stream.part_type part)) eqn:Hg.
  - apply andb_true_iff in Hg as [Hid Hty].
    rewrite handleStreamUpdate_calls by done.
    repeat match goal with |- context [if ?c then _ else _] => destruct c end; simpl; lia.
  - rewrite handleStreamUpdate_guarded by done. simpl. lia.
Qed.

(** After an edit the buffer holds its platform id and the time of the edit. *)
Lemma handleStreamUpdate_after_edit (p : Stream.Platform) (now : Z)
    (buffers : gmap string Stream.MessageBuffer) (chatId msgId : string)
    (part : Stream.Part) (delta : option string) :
  List.filter Stream.is_edit
    (snd (Stream.handleStreamUpdate p now buffers chatId msgId part delta)) ≠ [] →
  ∃ b, fst (Stream.handleStreamUpdate p now buffers chatId msgId part delta) !! msgId = Some b
       ∧ truthy_opt (Stream.feishuMsgId b) = true
       ∧ Stream.lastUpdateTime b = now.
Proof.
  unfold Stream.handleStreamUpdate.
  destruct (truthy msgId); simpl; [|done].
  destruct (Stream.is_text_or_reasoning (Stream.part_type part)); simpl; [|done].
  match goal with |- context [if ?c then _ else _] => destruct c end; simpl; [|done].
  unfold Stream.flush. simpl.
  destruct (truthy_opt (Stream.feishuMsgId (Stream.buffer_before buffers msgId part)))
    eqn:Hrec; simpl; [|done].
  intros _. eexists. rewrite lookup_insert_eq. split; [done|]. simpl. done.
Qed.

(** With a platform id recorded and no more than the interval elapsed, an
    update makes no call. *)
Lemma handleStreamUpdate_quiet (p : Stream.Platform) (now : Z)
    (buffers : gmap string Stream.MessageBuffer) (chatId msgId : string)
    (part : Stream.Part) (delta : option string) (b : Stream.MessageBuffer) :
  buffers !! msgId = Some b →
  truthy_opt (Stream.feishuMsgId b) = true →
  now - Stream.lastUpdateTime b ≤ Stream.UPDATE_INTERVAL →
  snd (Stream.handleStreamUpdate p now buffers chatId msgId part delta) = [].
Proof.
  intros Hb Hrec Hnow.
  destruct (truthy msgId && Stream.is_text_or_reasoning (Stream.part_type part)) eqn:Hg.
  - apply andb_true_iff in Hg as [Hid Hty].
    rewrite handleStreamUpdate_calls by done.
    unfold Stream.buffer_before. rewrite Hb. unfold Stream.shouldUpdate. simpl.
    rewrite Hrec. simpl. rewrite bool_decide_eq_false_2 by lia. done.
  - by rewrite handleStreamUpdate_guarded.
Qed.

(** Two updates of one message no more than the interval apart make at
    most one edit. *)
Lemma two_updates_one_edit (buffers : gmap string Stream.MessageBuffer)
    (f1 f2 : Stream.Fragment) :
  Stream.f_msgId f1 = Stream.f_msgId f2 →
  Stream.f_now f2 - Stream.f_now f1 ≤ Stream.UPDATE_INTERVAL →
  (length (List.filter Stream.is_edit (snd (Stream.run buffers [f1; f2]))) ≤ 1)%nat.
Proof.
  intros Hm Hnow. simpl. rewrite app_nil_r. unfold Stream.step.
  rewrite List.filter_app, length_app.
  set (r1 := Stream.handleStreamUpdate _ _ buffers _ (Stream.f_msgId f1) _ _).
  assert (length (List.filter Stream.is_edit (snd r1)) ≤ 1)%nat as Hle1.
  { etrans; [apply List.filter_length_le|]. apply handleStreamUpdate_at_most_one. }
  destruct (List.filter Stream.is_edit (snd r1)) as [|e es] eqn:He.
  - simpl.
    etrans; [apply List.filter_length_le|]. apply handleStreamUpdate_at_most_one.
  - assert (List.filter Stream.is_edit (snd r1) ≠ []) as Hne by (by rewrite He).
    apply handleStreamUpdate_after_edit in Hne as (b & Hb & Hrec & Hlast).
    fold r1 in Hb. rewrite <- Hm.
    rewrite (handleStreamUpdate_quiet _ _ _ _ _ _ _ b Hb Hrec) by lia.
    simpl in *. lia.
Qed.

(** C4, as the code has it.  On a fragment update for a backend message id
    a flush (one send or one edit) is made exactly when the accumulated
    content is non-empty and either no platform message id is recorded
    for the message or strictly more than 800 ms have passed since its
    last flush.  Hence two fragments of one message 10 ms apart cause at
    most one edit, and a fragment that arrives 900 ms after the last flush
    with content to show is flushed at once. *)
Theorem stream_flush_rule
    (p : Stream.Platform) (now : Z) (buffers : gmap string Stream.MessageBuffer)
    (chatId msgId : string) (part : Stream.Part) (delta : option string)
    (Hid : truthy msgId = true)
    (Hty : Stream.is_text_or_reasoning (Stream.part_type part) = true) :
  let b0 := Stream.buffer_before buffers msgId part in
  let content :=
    Stream.accumulate (Stream.fullContent b0) delta (Stream.part_text part) in
  let calls := snd (Stream.handleStreamUpdate p now buffers chatId msgId part delta) in
  (calls ≠ [] ↔
     content ≠ EmptyString
     ∧ (truthy_opt (Stream.feishuMsgId b0) = false
        ∨ Stream.UPDATE_INTERVAL < now - Stream.lastUpdateTime b0))
  ∧ (length calls ≤ 1)%nat
  ∧ (∀ f1 f2 : Stream.Fragment,
       Stream.f_msgId f1 = msgId → Stream.f_msgId f2 = msgId →
       Stream.f_now f2 = Stream.f_now f1 + 10 →
       (length (List.filter Stream.is_edit (snd (Stream.run buffers [f1; f2]))) ≤ 1)%nat)
  ∧ (now - Stream.lastUpdateTime b0 = 900 → content ≠ EmptyString → calls ≠ []).
Proof.
  intros b0 content calls.
  assert (calls ≠ [] ↔
          content ≠ EmptyString
          ∧ (truthy_opt (Stream.feishuMsgId b0) = false
             ∨ Stream.UPDATE_INTERVAL < now - Stream.lastUpdateTime b0)) as Hrule.
  { subst calls. rewrite handleStreamUpdate_calls by done.
    fold b0. fold content. unfold Stream.shouldUpdate. simpl.
    rewrite <- truthy_true.
    destruct (truthy content), (truthy_opt (Stream.feishuMsgId b0));
      simpl; try case_bool_decide; simpl; intuition (try done; try lia). }
  split; [exact Hrule|]. split; [apply handleStreamUpdate_at_most_one|]. split.
  - intros f1 f2 H1 H2 Hnow. apply two_updates_one_edit; [congruence|].
    unfold Stream.UPDATE_INTERVAL. lia.
  - intros Hnow Hc. apply Hrule. split; [done|]. right.
    unfold Stream.UPDATE_INTERVAL. lia.
Qed.

Lemma stream_flush_rule_witness :
  truthy "msg_1"%string = true
  ∧ Stream.is_text_or_reasoning Stream.PText = true
  ∧ snd (Stream.handleStreamUpdate
           (Stream.mkPlatform (Returned (Some "om_1"%string)) (Returned true)) 1900
           {[ "msg_1"%string := Stream.mkBuffer (Some "om_1"%string) "Hello"%string
                                  Stream.PText 1000 false ]}
           "oc_1"%string "msg_1"%string
           (Stream.mkPart Stream.PText None) (Some "!"%string)) ≠ [].
Proof.
  split; [reflexivity|]. split; [reflexivity|].
  apply (proj2 (proj2 (proj2 (stream_flush_rule
           (Stream.mkPlatform (Returned (Some "om_1"%string)) (Returned true)) 1900
           {[ "msg_1"%string := Stream.mkBuffer (Some "om_1"%string) "Hello"%string
                                  Stream.PText 1000 false ]}
           "oc_1"%string "msg_1"%string
           (Stream.mkPart Stream.PText None) (Some "!"%string)
           eq_refl eq_refl)))).
  - reflexivity.
  - discriminate.
Defined.

(** C4 as stated fails at the boundary: with a platform id recorded and
    exactly 800 ms since the last flush, the rule of the specification
    asks for a flush and the code makes none. *)
Lemma stream_flush_at_interval_counterexample :
  let b := Stream.mkBuffer (Some "om_1"%string) "Hello"%string Stream.PText 1000 false in
  let r :=
    Stream.handleStreamUpdate
      (Stream.mkPlatform (Returned (Some "om_1"%string)) (Returned true)) 1800
      {[ "msg_1"%string := b ]} "oc_1"%string "msg_1"%string
      (Stream.mkPart Stream.PText None) (Some "!"%string) in
  fst r !! "msg_1"%string
    = Some (Stream.mkBuffer (Some "om_1"%string) "Hello!"%string Stream.PText 1000 false)
  ∧ Stream.flush_due_spec
      (Stream.mkBuffer (Some "om_1"%string) "Hello!"%string Stream.PText 1000 false) 1800
    = true
  ∧ snd r = [].
Proof. vm_compute. done. Qed.

(** ** Platform send *)

(** The Teams client keeps the contract: it never throws, hands back the
    id of the created message, and [null] when the post failed. *)
Lemma teams_sendMessage_contract (chatId text : string) (post : Outcome (option string)) :
  (∀ s, post = Returned (Some s) → s ≠ EmptyString →
        Send.teams_sendMessage chatId text post = Returned (Send.Id s))
  ∧ (post = Threw → Send.teams_sendMessage chatId text post = Returned Send.Null)
  ∧ Send.teams_sendMessage chatId text post ≠ Threw.
Proof.
  split; [|split].
  - intros s -> Hs. unfold Send.teams_sendMessage, js_or. simpl.
    by apply truthy_true in Hs as ->.
  - by intros ->.
  - unfold Send.teams_sendMessage. destruct post as [o|]; [|done].
    by destruct (js_or o None).
Qed.

(** C2 fails for the Feishu client.  When the platform creates the message
    and reports its id, [FeishuClient.sendMessage] still hands back
    [undefined], where the contract (and the Teams client) hands back the
    id; the flush path then records no platform id, and the next flush of
    the same backend message sends a second message instead of editing. *)
Theorem feishu_sendMessage_returns_no_id :
  let created := Returned (Some "om_1"%string) in
  let result := Send.feishu_sendMessage "oc_1"%string "Hello"%string created in
  result = Returned Send.Undefined
  ∧ Send.sendMessage_spec created = Returned (Send.Id "om_1"%string)
  ∧ Send.teams_sendMessage "oc_1"%string "Hello"%string created
    = Returned (Send.Id "om_1"%string)
  ∧ let feishu := Stream.mkPlatform (Returned (Send.as_sentId Send.Undefined)) (Returned true) in
    let frag now d :=
      Stream.mkFragment feishu now "oc_1"%string "msg_1"%string
        (Stream.mkPart Stream.PText None) (Some d) in
    snd (Stream.run ∅ [frag 1000 "Hel"%string; frag 1010 "lo"%string])
    = [Stream.SendMessage "oc_1"%string "Hel"%string;
       Stream.SendMessage "oc_1"%string "Hello"%string].
Proof. vm_compute. done. Qed.

(** ** The token lifecycle *)

Lemma ensureValidToken_cases (c : Token.TeamsClient) (now : Z) :
  Token.ensureValidToken c now =
    if truthy_opt (Token.accessToken c)
       && bool_decide (now < Token.tokenExpiresAt c - 60000)
    then Token.ReturnFresh
    else if truthy_opt (Token.refreshToken c) && truthy (Token.client_id (Token.config c))
    then Token.StartRefresh
    else if truthy_opt (Token.accessToken c) then Token.ReturnAsIs
    else Token.ThrowNoAccessToken.
Proof.
  unfold Token.ensureValidToken, Token.SAFETY_MARGIN.
  by destruct (truthy_opt (Token.accessToken c)).
Qed.

Lemma refreshAccessToken_start_returns (c : Token.TeamsClient) :
  truthy_opt (Token.refreshToken c) = true →
  truthy (Token.client_id (Token.config c)) = true →
  ∃ rq, Token.refreshAccessToken_start c = Returned rq.
Proof.
  intros Hr Hc. unfold Token.refreshAccessToken_start. rewrite Hr, Hc. simpl. eauto.
Qed.

(** An invocation leaves the client as it is. *)
Lemma invoke_client (s : Token.Sys) (now : Z) :
  Token.client (Token.step s (Token.Invoke now)) = Token.client s.
Proof.
  simpl. destruct (Token.ensureValidToken (Token.client s) now); try done.
  by destruct (Token.refreshAccessToken_start (Token.client s)).
Qed.

(** A stale token with a refresh token and a client id at hand: the
    invocation posts one refresh request. *)
Lemma invoke_stale_issues (s : Token.Sys) (now : Z) :
  Token.tokenExpiresAt (Token.client s) - Token.SAFETY_MARGIN ≤ now →
  truthy_opt (Token.refreshToken (Token.client s)) = true →
  truthy (Token.client_id (Token.config (Token.client s))) = true →
  length (Token.issued (Token.step s (Token.Invoke now))) = S (length (Token.issued s))
  ∧ length (Token.in_flight (Token.step s (Token.Invoke now)))
    = S (length (Token.in_flight s)).
Proof.
  intros Hst Hr Hc. simpl. rewrite ensureValidToken_cases, Hr, Hc.
  unfold Token.SAFETY_MARGIN in Hst.
  rewrite (bool_decide_eq_false_2 (now < _)) by lia. rewrite andb_false_r. simpl.
  destruct (refreshAccessToken_start_returns _ Hr Hc) as [rq ->]. simpl.
  rewrite !length_app. simpl. lia.
Qed.

Lemma invokes_stale_issue_each (nows : list Z) (s : Token.Sys) :
  Forall (λ now, Token.tokenExpiresAt (Token.client s) - Token.SAFETY_MARGIN ≤ now) nows →
  truthy_opt (Token.refreshToken (Token.client s)) = true →
  truthy (Token.client_id (Token.config (Token.client s))) = true →
  length (Token.issued (Token.run s (Token.Invoke <$> nows)))
  = (length (Token.issued s) + length nows)%nat
  ∧ length (Token.in_flight (Token.run s (Token.Invoke <$> nows)))
    = (length (Token.in_flight s) + length nows)%nat.
Proof.
  revert s. induction nows as [|now nows IH]; intros s Hall Hr Hc.
  - simpl. lia.
  - apply Forall_cons in Hall as [Hnow Hall].
    destruct (invoke_stale_issues s now Hnow Hr Hc) as [Hi Hf].
    unfold Token.run in *. rewrite fmap_cons. cbn [foldl].
    destruct (IH (Token.step s (Token.Invoke now))) as [Hi' Hf'].
    + by rewrite invoke_client.
    + by rewrite invoke_client.
    + by rewrite invoke_client.
    + rewrite Hi', Hf', Hi, Hf. simpl. lia.
Qed.

(** C7, as the code has it.  While the token's expiry is within the 60 s
    margin and a refresh token and client id are configured, every
    invocation of [ensureValidToken] posts a refresh request of its own:
    invocations made before any refresh in flight settles issue as many
    refresh requests as there are invocations, all of them in flight
    together; nothing makes a caller wait on the refresh of another. *)
Theorem ensureValidToken_refresh_per_call (c : Token.TeamsClient) (nows : list Z) :
  Forall (λ now, Token.tokenExpiresAt c - Token.SAFETY_MARGIN ≤ now) nows →
  truthy_opt (Token.refreshToken c) = true →
  truthy (Token.client_id (Token.config c)) = true →
  Token.refresh_calls (Token.start c) (Token.Invoke <$> nows) = length nows
  ∧ length (Token.in_flight (Token.run (Token.start c) (Token.Invoke <$> nows)))
    = length nows.
Proof.
  intros Hall Hr Hc. unfold Token.refresh_calls.
  destruct (invokes_stale_issue_each nows (Token.start c) Hall Hr Hc) as [-> ->].
  simpl. lia.
Qed.

Lemma ensureValidToken_refresh_per_call_witness :
  Token.refresh_calls (Token.start Token.expiring_client)
    (Token.Invoke <$> [1000000; 1000001; 1000002]) = 3%nat.
Proof.
  apply (ensureValidToken_refresh_per_call Token.expiring_client [1000000; 1000001; 1000002]).
  - repeat constructor; vm_compute; discriminate.
  - reflexivity.
  - reflexivity.
Defined.

(** C7 as stated fails: with the expiry 30 s away and a refresh token
    configured, three invocations before the refresh settles issue three
    refresh requests, not one. *)
Lemma ensureValidToken_three_refreshes_counterexample :
  Token.ensureValidToken Token.expiring_client 1000000 = Token.StartRefresh
  ∧ Token.refresh_calls (Token.start Token.expiring_client)
      [Token.Invoke 1000000; Token.Invoke 1000000; Token.Invoke 1000000] = 3%nat
  ∧ Token.refresh_calls (Token.start Token.expiring_client)
      [Token.Invoke 1000000; Token.Invoke 1000000; Token.Invoke 1000000] ≠ 1%nat.
Proof. vm_compute. repeat split; done. Qed.

(** C8, as the code has it.  [ensureValidToken] throws the
    no-access-token error exactly when no access token is set and a
    refresh cannot be made (the refresh token or the client id is
    missing).  With a token set and the expiry more than 60 s away it
    returns and no refresh is posted; with the token missing or within
    the margin, and a refresh token and client id configured, it posts a
    refresh; with a token set and no refresh token it returns, whatever
    the expiry, and leaves the configured token in place. *)
Theorem ensureValidToken_outcomes (c : Token.TeamsClient) (now : Z) :
  let s := Token.start c in
  (Token.ensureValidToken c now = Token.ThrowNoAccessToken ↔
     truthy_opt (Token.accessToken c) = false
     ∧ (truthy_opt (Token.refreshToken c) = false
        ∨ truthy (Token.client_id (Token.config c)) = false))
  ∧ (truthy_opt (Token.accessToken c) = true →
     now < Token.tokenExpiresAt c - Token.SAFETY_MARGIN →
     Token.ensureValidToken c now = Token.ReturnFresh
     ∧ Token.step s (Token.Invoke now) = s)
  ∧ (truthy_opt (Token.accessToken c) = false
     ∨ Token.tokenExpiresAt c - Token.SAFETY_MARGIN ≤ now →
     truthy_opt (Token.refreshToken c) = true →
     truthy (Token.client_id (Token.config c)) = true →
     Token.ensureValidToken c now = Token.StartRefresh
     ∧ ∃ rq, Token.refreshAccessToken_start c = Returned rq
             ∧ Token.step s (Token.Invoke now) = Token.mkSys c [rq] [rq])
  ∧ (truthy_opt (Token.accessToken c) = true →
     truthy_opt (Token.refreshToken c) = false →
     (Token.ensureValidToken c now = Token.ReturnFresh
      ∨ Token.ensureValidToken c now = Token.ReturnAsIs)
     ∧ (Token.tokenExpiresAt c ≤ now → Token.ensureValidToken c now = Token.ReturnAsIs)
     ∧ Token.step s (Token.Invoke now) = s).
Proof.
  intros s. subst s. unfold Token.SAFETY_MARGIN. simpl.
  rewrite ensureValidToken_cases.
  split; [|split; [|split]].
  - destruct (truthy_opt (Token.accessToken c)),
      (truthy_opt (Token.refreshToken c)),
      (truthy (Token.client_id (Token.config c)));
      simpl; try case_bool_decide; simpl; intuition congruence.
  - intros -> Hnow. rewrite bool_decide_eq_true_2 by done. done.
  - intros Hstale Hr Hc. rewrite Hr, Hc.
    destruct (refreshAccessToken_start_returns c Hr Hc) as [rq Hrq].
    assert (truthy_opt (Token.accessToken c)
            && bool_decide (now < Token.tokenExpiresAt c - 60000) = false) as ->.
    { destruct Hstale as [->|Hlate]; [done|].
      rewrite (bool_decide_eq_false_2 (now < _)) by lia. apply andb_false_r. }
    simpl. split; [done|]. exists rq. by rewrite Hrq.
  - intros -> Hr. rewrite Hr. simpl.
    case_bool_decide; simpl; (split; [eauto|split; [|done]]); intros; (done || lia).
Qed.

Lemma ensureValidToken_outcomes_witness :
  truthy_opt (Token.accessToken Token.expiring_client) = true
  ∧ 900000 < Token.tokenExpiresAt Token.expiring_client - Token.SAFETY_MARGIN
  ∧ Token.ensureValidToken Token.expiring_client 900000 = Token.ReturnFresh.
Proof.
  split; [reflexivity|]. split; [reflexivity|].
  apply (proj1 (proj2 (ensureValidToken_outcomes Token.expiring_client 900000))).
  - reflexivity.
  - reflexivity.
Defined.

(** C8 as stated fails when the client id is missing: a refresh token is
    configured, no access token is set, and the call throws the
    no-access-token error. *)
Lemma ensureValidToken_no_client_id_counterexample :
  let c :=
    Token.new_client
      (Token.mkConfig EmptyString None None None (Some "refresh-1"%string)) in
  truthy_opt (Token.accessToken c) = false
  ∧ Token.no_refresh_credential c = false
  ∧ Token.ensureValidToken c 1000000 = Token.ThrowNoAccessToken.
Proof. vm_compute. done. Qed.

(** Once the refresh has settled the token is fresh again: the next
    invocation returns without a post. *)
Example refresh_then_fresh :
  let settled :=
    Token.run (Token.start Token.expiring_client)
      [Token.Invoke 1000000;
       Token.Settle 0 (Returned (Token.mkResponse (Some "token-2"%string) None None)) 1000500] in
  Token.accessToken (Token.client settled) = Some "token-2"%string
  ∧ Token.refreshToken (Token.client settled) = Some "refresh-1"%string
  ∧ Token.tokenExpiresAt (Token.client settled) = 4600500
  ∧ Token.in_flight settled = []
  ∧ Token.ensureValidToken (Token.client settled) 1001000 = Token.ReturnFresh
  ∧ Token.refresh_calls settled [Token.Invoke 1001000] = 0%nat.
Proof. vm_compute. repeat split; reflexivity. Qed.

(** ** The conversation queue *)

Lemma settled_begun (s : Queue.Status) : Queue.settled s = true → Queue.begun s = true.
Proof. by destruct s. Qed.

Lemma chat_set_status (ts : list Queue.Task) (j : nat) (t : Queue.Task) (s : Queue.Status) :
  ts !! j = Some t →
  Queue.chat <$> <[j := Queue.set_status t s]> ts = Queue.chat <$> ts.
Proof.
  intros Hj. rewrite list_fmap_insert. simpl.
  apply list_insert_id. by rewrite list_lookup_fmap, Hj.
Qed.

(** A task read after the status of task [j] was set. *)
Lemma lookup_set_status (ts : list Queue.Task) (j k : nat) (t tk : Queue.Task)
    (s : Queue.Status) :
  ts !! j = Some t →
  <[j := Queue.set_status t s]> ts !! k = Some tk →
  ∃ tk0, ts !! k = Some tk0
         ∧ Queue.chat tk = Queue.chat tk0
         ∧ Queue.previousTask tk = Queue.previousTask tk0
         ∧ Queue.status tk = if decide (k = j) then s else Queue.status tk0.
Proof.
  intros Hj Hk. destruct (decide (k = j)) as [->|Hne].
  - rewrite list_lookup_insert_eq in Hk by (by eapply lookup_lt_Some).
    injection Hk as <-. eauto.
  - rewrite list_lookup_insert_ne in Hk by done. eauto.
Qed.

Lemma is_last_snoc_same (cs : list string) (c : string) :
  Queue.is_last (cs ++ [c]) c (Some (length cs)).
Proof.
  split.
  - rewrite lookup_app_r by lia. by rewrite Nat.sub_diag.
  - intros k Hk. rewrite lookup_ge_None_2; [done|]. rewrite length_app. simpl. lia.
Qed.

Lemma is_last_snoc_other (cs : list string) (c c' : string) (o : option nat) :
  c ≠ c' → Queue.is_last cs c' o → Queue.is_last (cs ++ [c]) c' o.
Proof.
  intros Hne Ho.
  assert (∀ k, cs !! k ≠ Some c' → (cs ++ [c]) !! k ≠ Some c') as Hfar.
  { intros k Hk. destruct (decide (k < length cs)%nat).
    - by rewrite lookup_app_l.
    - rewrite lookup_app_r by lia.
      destruct (k - length cs)%nat; simpl; intros Heq; inversion Heq; congruence. }
  destruct o as [p|]; simpl in *.
  - destruct Ho as [Hp Hafter]. split.
    + rewrite lookup_app_l; [done|]. by eapply lookup_lt_Some.
    + intros k Hk. apply Hfar. by apply Hafter.
  - intros k. apply Hfar. apply Ho.
Qed.

(** With an earlier task of the same conversation at [i], the last one
    before [j] exists and is not before [i]. *)
Lemma is_last_take_bound (cs : list string) (c : string) (o : option nat) (i j : nat) :
  Queue.is_last (take j cs) c o → (i < j)%nat → cs !! i = Some c →
  ∃ p, o = Some p ∧ (i ≤ p)%nat ∧ (p < j)%nat ∧ cs !! p = Some c.
Proof.
  intros Ho Hij Hi.
  assert (take j cs !! i = Some c) as Hi' by (by rewrite lookup_take_lt).
  destruct o as [p|]; simpl in Ho.
  - destruct Ho as [Hp Hafter]. exists p.
    assert (p < j)%nat as Hpj.
    { apply lookup_lt_Some in Hp. rewrite length_take in Hp. lia. }
    split; [done|]. split; [|split; [done|]].
    + destruct (decide (i ≤ p)%nat); [done|]. exfalso. apply (Hafter i); [lia|done].
    + by rewrite lookup_take_lt in Hp.
  - exfalso. by apply (Ho i).
Qed.

Lemma inv_init : Queue.inv Queue.init.
Proof.
  split; simpl.
  - intros c. rewrite lookup_empty. simpl. intros k. by rewrite lookup_nil.
  - intros j t Hj. by rewrite lookup_nil in Hj.
  - intros i j ti tj _ Hi. by rewrite lookup_nil in Hi.
Qed.

Lemma inv_incoming (st : Queue.State) (c : string) :
  Queue.inv st →
  Queue.inv (Queue.mkState
               (Queue.tasks st ++ [Queue.mkTask c (Queue.chatQueues st !! c) Queue.Waiting])
               (<[c := length (Queue.tasks st)]> (Queue.chatQueues st))).
Proof.
  intros [Hq Hp Ho]. split; simpl.
  - intros c'. rewrite fmap_app. simpl. destruct (decide (c = c')) as [<-|Hne].
    + rewrite lookup_insert_eq.
      replace (length (Queue.tasks st)) with (length (Queue.chat <$> Queue.tasks st))
        by apply length_fmap.
      apply is_last_snoc_same.
    + rewrite lookup_insert_ne by done. by apply is_last_snoc_other.
  - intros j t Hj. rewrite fmap_app. simpl.
    destruct (decide (j < length (Queue.tasks st))%nat) as [Hlt|Hge].
    + rewrite lookup_app_l in Hj by done.
      rewrite take_app_le by (rewrite length_fmap; lia). by apply Hp.
    + rewrite lookup_app_r in Hj by lia.
      destruct (j - length (Queue.tasks st))%nat as [|n] eqn:Hn; simpl in Hj; [|done].
      injection Hj as <-. simpl.
      assert (j = length (Queue.chat <$> Queue.tasks st)) as ->
        by (rewrite length_fmap; lia).
      rewrite take_app_length. apply Hq.
  - intros i j ti tj Hij Hi Hj Hc Hb.
    destruct (decide (j < length (Queue.tasks st))%nat) as [Hlt|Hge].
    + rewrite lookup_app_l in Hi by lia. rewrite lookup_app_l in Hj by done.
      by eapply (Ho i j).
    + rewrite lookup_app_r in Hj by lia.
      destruct (j - length (Queue.tasks st))%nat as [|n]; simpl in Hj; [|done].
      injection Hj as <-. done.
Qed.

Lemma inv_begin (st : Queue.State) (j : nat) (t : Queue.Task) :
  Queue.inv st →
  Queue.tasks st !! j = Some t →
  Queue.status t = Queue.Waiting →
  Queue.previous_settled (Queue.tasks st) t = true →
  Queue.inv (Queue.mkState (<[j := Queue.set_status t Queue.Running]> (Queue.tasks st))
                           (Queue.chatQueues st)).
Proof.
  intros [Hq Hp Ho] Hj Hw Hps. split; simpl.
  - intros c. rewrite chat_set_status by done. apply Hq.
  - intros k tk Hk. rewrite chat_set_status by done.
    destruct (lookup_set_status _ _ _ _ _ _ Hj Hk) as (tk0 & Hk0 & -> & -> & _).
    by apply Hp.
  - intros i k ti tk Hik Hi Hk Hc Hb.
    destruct (lookup_set_status _ _ _ _ _ _ Hj Hi) as (ti0 & Hi0 & Hci & _ & Hsi).
    destruct (lookup_set_status _ _ _ _ _ _ Hj Hk) as (tk0 & Hk0 & Hck & _ & Hsk).
    rewrite Hci, Hck in Hc.
    assert (Queue.settled (Queue.status ti0) = true) as Hset.
    { destruct (decide (k = j)) as [->|Hkj].
      - (* the task that begins: its awaited task bounds every earlier one *)
        assert (tk0 = t) as -> by congruence.
        assert ((Queue.chat <$> Queue.tasks st) !! i = Some (Queue.chat t)) as Hci0.
        { rewrite list_lookup_fmap, Hi0. simpl. by rewrite Hc. }
        destruct (is_last_take_bound _ _ _ i j (Hp j t Hj) Hik Hci0)
          as (p & Hprev & Hip & Hpj & Hcp).
        unfold Queue.previous_settled in Hps. rewrite Hprev in Hps.
        destruct (Queue.tasks st !! p) as [tp|] eqn:Hlp; [|done].
        destruct (decide (i = p)) as [->|Hne]; [congruence|].
        apply (Ho i p ti0 tp); [lia|done|done| |by apply settled_begun].
        rewrite list_lookup_fmap, Hlp in Hcp. simpl in Hcp. congruence.
      - rewrite Hsk in Hb. by apply (Ho i k ti0 tk0). }
    rewrite Hsi. destruct (decide (i = j)) as [->|_]; [|done].
    assert (ti0 = t) as -> by congruence. by rewrite Hw in Hset.
Qed.

Lemma inv_finish (st : Queue.State) (j : nat) (t : Queue.Task) (ok : bool) :
  Queue.inv st →
  Queue.tasks st !! j = Some t →
  Queue.status t = Queue.Running →
  Queue.inv (Queue.mkState
               (<[j := Queue.set_status t (if ok then Queue.Resolved else Queue.Rejected)]>
                  (Queue.tasks st))
               (Queue.chatQueues st)).
Proof.
  intros [Hq Hp Ho] Hj Hr. split; simpl.
  - intros c. rewrite chat_set_status by done. apply Hq.
  - intros k tk Hk. rewrite chat_set_status by done.
    destruct (lookup_set_status _ _ _ _ _ _ Hj Hk) as (tk0 & Hk0 & -> & -> & _).
    by apply Hp.
  - intros i k ti tk Hik Hi Hk Hc Hb.
    destruct (lookup_set_status _ _ _ _ _ _ Hj Hi) as (ti0 & Hi0 & Hci & _ & Hsi).
    destruct (lookup_set_status _ _ _ _ _ _ Hj Hk) as (tk0 & Hk0 & Hck & _ & Hsk).
    rewrite Hci, Hck in Hc.
    assert (Queue.begun (Queue.status tk0) = true) as Hb0.
    { destruct (decide (k = j)) as [->|_]; [|by rewrite <- Hsk].
      assert (tk0 = t) as -> by congruence. by rewrite Hr. }
    rewrite Hsi. destruct (decide (i = j)); [by destruct ok|].
    by apply (Ho i k ti0 tk0).
Qed.

Lemma inv_step (st st' : Queue.State) (e : Queue.Event) :
  Queue.inv st → Queue.step st e = Some st' → Queue.inv st'.
Proof.
  intros Hinv Hstep. destruct e as [c [|]|j|j ok]; simpl in Hstep.
  - by injection Hstep as <-.
  - injection Hstep as <-. by apply inv_incoming.
  - destruct (Queue.tasks st !! j) as [t|] eqn:Hj; [|done].
    destruct (bool_decide (Queue.status t = Queue.Waiting)) eqn:Hw; [|done].
    destruct (Queue.previous_settled (Queue.tasks st) t) eqn:Hps; [|done].
    apply bool_decide_eq_true in Hw. injection Hstep as <-. by apply inv_begin.
  - destruct (Queue.tasks st !! j) as [t|] eqn:Hj; [|done].
    destruct (bool_decide (Queue.status t = Queue.Running)) eqn:Hr; [|done].
    apply bool_decide_eq_true in Hr. injection Hstep as <-. by apply inv_finish.
Qed.

Lemma inv_run (es : list Queue.Event) (st st' : Queue.State) :
  Queue.inv st → Queue.run st es = Some st' → Queue.inv st'.
Proof.
  revert st. induction es as [|e es IH]; intros st Hinv Hrun; simpl in Hrun.
  - by injection Hrun as <-.
  - destruct (Queue.step st e) as [st1|] eqn:Hstep; [|done].
    apply (IH st1); [|done]. by eapply inv_step.
Qed.

Lemma inv_reachable (st : Queue.State) : Queue.reachable st → Queue.inv st.
Proof. intros [es Hrun]. eapply inv_run; [apply inv_init|done]. Qed.

(** C1.  In every state the handler can reach, two tasks enqueued for the
    same conversation are never both running; a task has begun only if
    every earlier task of its conversation has settled, and its
    continuation is scheduled only then; a rejected earlier task does not
    block the later one (it can begin and resolve), and the rejection
    itself changes the status of no other task. *)
Theorem queue_serializes_conversation (st : Queue.State) :
  Queue.reachable st →
  (∀ i j ti tj, i ≠ j →
     Queue.tasks st !! i = Some ti → Queue.tasks st !! j = Some tj →
     Queue.chat ti = Queue.chat tj →
     ¬ (Queue.status ti = Queue.Running ∧ Queue.status tj = Queue.Running))
  ∧ (∀ i j ti tj, (i < j)%nat →
       Queue.tasks st !! i = Some ti → Queue.tasks st !! j = Some tj →
       Queue.chat ti = Queue.chat tj →
       Queue.begun (Queue.status tj) = true → Queue.settled (Queue.status ti) = true)
  ∧ (∀ i j ti tj st', (i < j)%nat →
       Queue.tasks st !! i = Some ti → Queue.tasks st !! j = Some tj →
       Queue.chat ti = Queue.chat tj →
       Queue.step st (Queue.Begin j) = Some st' →
       Queue.settled (Queue.status ti) = true)
  ∧ (∀ j tj p tp,
       Queue.tasks st !! j = Some tj → Queue.status tj = Queue.Waiting →
       Queue.previousTask tj = Some p →
       Queue.tasks st !! p = Some tp → Queue.status tp = Queue.Rejected →
       ∃ st' st'',
         Queue.step st (Queue.Begin j) = Some st'
         ∧ Queue.status_at st' j = Some Queue.Running
         ∧ Queue.step st' (Queue.Finish j true) = Some st''
         ∧ Queue.status_at st'' j = Some Queue.Resolved)
  ∧ (∀ p st', Queue.step st (Queue.Finish p false) = Some st' →
       Queue.status_at st' p = Some Queue.Rejected
       ∧ ∀ j, j ≠ p → Queue.status_at st' j = Queue.status_at st j).
Proof.
  intros Hreach. pose proof (inv_reachable st Hreach) as Hinv.
  assert (∀ i j ti tj, (i < j)%nat →
     Queue.tasks st !! i = Some ti → Queue.tasks st !! j = Some tj →
     Queue.chat ti = Queue.chat tj →
     ¬ (Queue.status ti = Queue.Running ∧ Queue.status tj = Queue.Running)) as Hexcl.
  { intros i j ti tj Hij Hi Hj Hc [Hri Hrj].
    pose proof (Queue.inv_order st Hinv i j ti tj Hij Hi Hj Hc) as Hs.
    rewrite Hri, Hrj in Hs. by specialize (Hs eq_refl). }
  split; [|split; [|split; [|split]]].
  - intros i j ti tj Hne Hi Hj Hc [Hri Hrj].
    destruct (decide (i < j)%nat).
    + by apply (Hexcl i j ti tj).
    + apply (Hexcl j i tj ti); [lia|done|done|done|done].
  - apply (Queue.inv_order st Hinv).
  - intros i j ti tj st' Hij Hi Hj Hc Hstep.
    pose proof (inv_step _ _ _ Hinv Hstep) as Hinv'.
    simpl in Hstep. rewrite Hj in Hstep.
    destruct (bool_decide (Queue.status tj = Queue.Waiting)
              && Queue.previous_settled (Queue.tasks st) tj); [|done].
    injection Hstep as <-.
    apply (Queue.inv_order _ Hinv' i j ti (Queue.set_status tj Queue.Running)); simpl;
      try done.
    + rewrite list_lookup_insert_ne by lia. done.
    + rewrite list_lookup_insert_eq by (by eapply lookup_lt_Some). done.
  - intros j tj p tp Hj Hw Hprev Hp Hrej.
    assert (j < length (Queue.tasks st))%nat as Hlt by (by eapply lookup_lt_Some).
    set (t1 := Queue.set_status tj Queue.Running).
    set (ts1 := <[j := t1]> (Queue.tasks st)).
    assert (ts1 !! j = Some t1) as Hj1.
    { unfold ts1. by rewrite list_lookup_insert_eq. }
    exists (Queue.mkState ts1 (Queue.chatQueues st)),
           (Queue.mkState (<[j := Queue.set_status t1 Queue.Resolved]> ts1)
                          (Queue.chatQueues st)).
    split; [|split; [|split]].
    + simpl. rewrite Hj, Hw. unfold Queue.previous_settled.
      rewrite Hprev, Hp, Hrej. done.
    + unfold Queue.status_at. simpl. by rewrite Hj1.
    + simpl. by rewrite Hj1.
    + unfold Queue.status_at. simpl.
      rewrite list_lookup_insert_eq; [done|]. by eapply lookup_lt_Some.
  - intros p st' Hstep. simpl in Hstep.
    destruct (Queue.tasks st !! p) as [t|] eqn:Hp; [|done].
    destruct (bool_decide (Queue.status t = Queue.Running)); [|done].
    injection Hstep as <-. unfold Queue.status_at. simpl. split.
    + rewrite list_lookup_insert_eq by (by eapply lookup_lt_Some). done.
    + intros j Hne. by rewrite list_lookup_insert_ne.
Qed.

Lemma queue_serializes_conversation_witness :
  Queue.reachable Queue.after_rejection
  ∧ ∃ st' st'',
      Queue.step Queue.after_rejection (Queue.Begin 1) = Some st'
      ∧ Queue.status_at st' 1 = Some Queue.Running
      ∧ Queue.step st' (Queue.Finish 1 true) = Some st''
      ∧ Queue.status_at st'' 1 = Some Queue.Resolved.
Proof.
  assert (Queue.reachable Queue.after_rejection) as Hreach.
  { exists [Queue.Incoming "A"%string false; Queue.Incoming "A"%string false;
            Queue.Begin 0; Queue.Finish 0 false].
    vm_compute. reflexivity. }
  split; [exact Hreach|].
  apply (proj1 (proj2 (proj2 (proj2 (queue_serializes_conversation _ Hreach))))
           1%nat (Queue.mkTask "A"%string (Some 0%nat) Queue.Waiting)
           0%nat (Queue.mkTask "A"%string None Queue.Rejected));
    reflexivity.
Defined.

(** ** The session router *)

Lemma resolve_cached (cache : gmap string string) (chatId sid : string)
    (m : Router.Message) :
  cache !! chatId = Some sid → truthy sid = true →
  Router.resolve cache chatId m = (Router.Ok sid, cache, []).
Proof. intros Hc Ht. unfold Router.resolve. by rewrite Hc, Ht. Qed.

Lemma resolve_create (cache : gmap string string) (chatId new : string)
    (m : Router.Message) :
  cache !! chatId = None →
  Router.createSession m = Router.Ok (Some new) → truthy new = true →
  Router.resolve cache chatId m =
    (Router.Ok new, <[chatId := new]> cache,
     [Router.CreateSession (Router.uniqueTitle chatId (Router.timeString m))]).
Proof. intros Hc Hn Ht. unfold Router.resolve. by rewrite Hc, Hn, Ht. Qed.

(** A resolved session is a truthy id and is the binding afterwards. *)
Lemma resolve_ok (cache cache1 : gmap string string) (chatId sid : string)
    (m : Router.Message) (calls : list Router.Call) :
  Router.resolve cache chatId m = (Router.Ok sid, cache1, calls) →
  truthy sid = true ∧ cache1 !! chatId = Some sid.
Proof.
  unfold Router.resolve. intros H.
  assert (∀ x, match Router.createSession m with
               | Router.Ok (Some new) =>
                   if truthy new
                   then (Router.Ok new, <[chatId := new]> cache, [x])
                   else (Router.Err (Router.mkError None "Failed to init Session"%string),
                         cache, [x])
               | Router.Ok None =>
                   (Router.Err (Router.mkError None "Failed to init Session"%string),
                    cache, [x])
               | Router.Err e => (Router.Err e, cache, [x])
               end = (Router.Ok sid, cache1, calls) →
               truthy sid = true ∧ cache1 !! chatId = Some sid) as Hcreate.
  { intros x Hx. destruct (Router.createSession m) as [[new|]|e]; try done.
    destruct (truthy new) eqn:Ht; [|done].
    injection Hx as <- <- <-. split; [done|]. by rewrite lookup_insert_eq. }
  destruct (cache !! chatId) as [old|] eqn:Hc; [|by eapply Hcreate].
  destruct (truthy old) eqn:Ht; [|by eapply Hcreate].
  injection H as <- <- <-. done.
Qed.

Lemma created_finally (m : Router.Message) (r : option string) :
  Router.created (Router.finally m r) = 0%nat.
Proof. unfold Router.finally. by destruct (truthy (Router.messageId m) && truthy_opt r). Qed.

Lemma created_app (a b : list Router.Call) :
  Router.created (a ++ b) = (Router.created a + Router.created b)%nat.
Proof. unfold Router.created. by rewrite List.filter_app, length_app. Qed.

(** What handling a message that is not a ping does once the session is
    resolved. *)
Lemma handle_resolved (st : Router.State) (chatId sid : string) (m : Router.Message)
    (cache1 : gmap string string) (calls1 : list Router.Call) :
  Router.isPing m = false →
  Router.resolve (Router.sessionCache st) chatId m = (Router.Ok sid, cache1, calls1) →
  Router.prompted calls1 = None →
  Router.prompted (snd (Router.handle st chatId m)) = Some sid
  ∧ Router.created (snd (Router.handle st chatId m)) = Router.created calls1
  ∧ Router.sessionCache (fst (Router.handle st chatId m))
    = if Router.invalidates m then delete chatId cache1 else cache1.
Proof.
  intros Hping Hres Hnp. unfold Router.handle, Router.invalidates.
  rewrite Hping, Hres.
  assert (∀ rest, Router.prompted
            ((if truthy (Router.messageId m)
              then [Router.AddReaction (Router.messageId m)] else [])
             ++ calls1 ++ [Router.PromptSession sid (Router.text m)] ++ rest) = Some sid)
    as Hprompted.
  { intros rest. unfold Router.prompted in *. rewrite !omap_app.
    destruct (omap _ calls1); [|done].
    by destruct (truthy (Router.messageId m)). }
  assert (Router.created (if truthy (Router.messageId m)
                          then [Router.AddReaction (Router.messageId m)] else []) = 0%nat)
    as Hc0 by (by destruct (truthy (Router.messageId m))).
  destruct (Router.promptSession m) as [u|e]; unfold Router.on_error;
    cbn [fst snd Router.sessionCache].
  - split; [apply Hprompted|]. split; [|done].
    rewrite !created_app, Hc0, created_finally. cbn. lia.
  - split; [apply Hprompted|]. split; [|done].
    rewrite !created_app, Hc0, created_finally. cbn. lia.
Qed.

Lemma handle_unresolved (st : Router.State) (chatId : string) (m : Router.Message)
    (e : Router.ApiError) (cache1 : gmap string string) (calls1 : list Router.Call) :
  Router.resolve (Router.sessionCache st) chatId m = (Router.Err e, cache1, calls1) →
  Router.prompted calls1 = None →
  Router.prompted (snd (Router.handle st chatId m)) = None.
Proof.
  intros Hres Hnp. unfold Router.handle. destruct (Router.isPing m); [done|].
  rewrite Hres. unfold Router.on_error. cbn [fst snd].
  unfold Router.prompted in *. rewrite !omap_app.
  destruct (omap _ calls1); [|done].
  unfold Router.finally.
  destruct (truthy (Router.messageId m)); simpl;
    by destruct (truthy_opt (Router.reaction m)).
Qed.

Lemma resolve_not_prompt (cache cache1 : gmap string string) (chatId : string)
    (m : Router.Message) (r : Router.Result string) (calls : list Router.Call) :
  Router.resolve cache chatId m = (r, cache1, calls) → Router.prompted calls = None.
Proof.
  unfold Router.resolve. intros H.
  destruct (cache !! chatId) as [old|]; [destruct (truthy old)|];
    try (injection H as <- <- <-; done);
    destruct (Router.createSession m) as [[new|]|e];
    try destruct (truthy new); injection H as <- <- <-; done.
Qed.

(** C9.  For a conversation whose message was submitted to session [sid1]
    without the binding being dropped, the next message is submitted to
    the same [sid1] and no backend session is created for it.  When the
    prompt of that message meets a 404 the binding is dropped, and the
    message after it creates one backend session and is submitted to the
    id the backend returns for it, a different id as the backend hands out
    a new one. *)
Theorem router_reuses_then_recreates (st : Router.State) (chatId : string)
    (m1 m2 m3 : Router.Message) (sid1 sid2 : string) :
  Router.isPing m1 = false → Router.isPing m2 = false → Router.isPing m3 = false →
  let r1 := Router.handle st chatId m1 in
  let r2 := Router.handle (fst r1) chatId m2 in
  let r3 := Router.handle (fst r2) chatId m3 in
  Router.prompted (snd r1) = Some sid1 →
  Router.invalidates m1 = false →
  (Router.prompted (snd r2) = Some sid1 ∧ Router.created (snd r2) = 0%nat)
  ∧ (Router.invalidates m2 = true →
     Router.createSession m3 = Router.Ok (Some sid2) → truthy sid2 = true →
     sid2 ≠ sid1 →
     Router.sessionCache (fst r2) !! chatId = None
     ∧ Router.created (snd r3) = 1%nat
     ∧ Router.prompted (snd r3) = Some sid2
     ∧ Router.prompted (snd r3) ≠ Router.prompted (snd r2)).
Proof.
  intros Hp1 Hp2 Hp3 r1 r2 r3 Hused Hkeep.
  (* the first message: its session is cached afterwards *)
  destruct (Router.resolve (Router.sessionCache st) chatId m1) as [[res c1] calls1] eqn:Hres1.
  pose proof (resolve_not_prompt _ _ _ _ _ _ Hres1) as Hnp1.
  destruct res as [sid|e]; cycle 1.
  { subst r1. rewrite (handle_unresolved _ _ _ _ _ _ Hres1 Hnp1) in Hused. done. }
  destruct (handle_resolved _ _ _ _ _ _ Hp1 Hres1 Hnp1) as (Hu1 & _ & Hc1).
  fold r1 in Hu1, Hc1. rewrite Hu1 in Hused. injection Hused as ->.
  rewrite Hkeep in Hc1.
  destruct (resolve_ok _ _ _ _ _ _ Hres1) as [Ht1 Hl1].
  (* the second message finds it *)
  assert (Router.resolve (Router.sessionCache (fst r1)) chatId m2
          = (Router.Ok sid1, c1, [])) as Hres2.
  { rewrite Hc1. by apply resolve_cached. }
  destruct (handle_resolved _ _ _ _ _ _ Hp2 Hres2 eq_refl) as (Hu2 & Hn2 & Hc2).
  fold r2 in Hu2, Hn2, Hc2.
  split; [done|].
  (* the third message, after the 404 *)
  intros Hdrop Hnew Ht2 Hne. rewrite Hdrop in Hc2.
  assert (Router.sessionCache (fst r2) !! chatId = None) as Hgone.
  { rewrite Hc2. apply lookup_delete_eq. }
  pose proof (resolve_create _ _ _ m3 Hgone Hnew Ht2) as Hres3.
  destruct (handle_resolved _ _ _ _ _ _ Hp3 Hres3 eq_refl) as (Hu3 & Hn3 & _).
  fold r3 in Hu3, Hn3.
  split; [done|]. split; [done|]. split; [done|].
  rewrite Hu3, Hu2. congruence.
Qed.

Lemma router_reuses_then_recreates_witness :
  let st := Router.mkState ∅ ∅ in
  let r1 := Router.handle st "oc_chat1"%string Router.first_message in
  let r2 := Router.handle (fst r1) "oc_chat1"%string Router.second_message in
  let r3 := Router.handle (fst r2) "oc_chat1"%string Router.third_message in
  (Router.prompted (snd r1) = Some "ses_1"%string
   ∧ Router.invalidates Router.first_message = false
   ∧ Router.invalidates Router.second_message = true)
  ∧ (Router.prompted (snd r2) = Some "ses_1"%string ∧ Router.created (snd r2) = 0%nat)
  ∧ (Router.created (snd r3) = 1%nat ∧ Router.prompted (snd r3) = Some "ses_2"%string).
Proof.
  intros st r1 r2 r3.
  assert (Router.prompted (snd r1) = Some "ses_1"%string) as Hused
    by (vm_compute; reflexivity).
  pose proof (router_reuses_then_recreates st "oc_chat1"%string
                Router.first_message Router.second_message Router.third_message
                "ses_1"%string "ses_2"%string
                eq_refl eq_refl eq_refl Hused eq_refl) as [Hsame Hnew].
  split; [split; [exact Hused|split; reflexivity]|].
  split; [exact Hsame|].
  destruct (Hnew eq_refl eq_refl eq_refl) as (_ & Hc & Hp & _).
  - discriminate.
  - split; [exact Hc|exact Hp].
Defined.

(** ** The Feishu receive paths *)

Section ReceiveFacts.

Variable parse : option string → option (list string) → string.

(** The shared part, in closed form. *)
Lemma deliver_trace (cache : list string) (chatId messageId : string)
    (open_id content : option string) (mentions : option (list string)) :
  Receive.deliver parse cache chatId messageId open_id content mentions =
    if Dedup.has cache messageId then (cache, [Receive.Dedup messageId true])
    else
      (snd (Dedup.isMessageProcessed Dedup.Feishu cache messageId),
       Receive.Dedup messageId false :: Receive.Parse content ::
         (if truthy (parse content mentions)
          then [Receive.OnMessage chatId (parse content mentions) messageId
                  (default EmptyString (js_or open_id (Some EmptyString)))]
          else [])).
Proof.
  unfold Receive.deliver. destruct (Dedup.has cache messageId) eqn:Hh.
  - rewrite isMessageProcessed_present by (by apply has_true). done.
  - apply has_false in Hh.
    destruct (isMessageProcessed_absent Dedup.Feishu cache messageId Hh) as [-> _].
    by destruct (truthy (parse content mentions)).
Qed.

(** A receive path, in closed form over the id it checks. *)
Lemma receive_trace (cache : list string) (i : Receive.Inbound) :
  Receive.receive parse cache i =
    match Receive.checked_id i with
    | None => (cache, [])
    | Some id =>
        if Dedup.has cache id then (cache, [Receive.Dedup id true])
        else
          (snd (Dedup.isMessageProcessed Dedup.Feishu cache id),
           Receive.Dedup id false :: Receive.Parse (Receive.content_of i) ::
             (if truthy (Receive.parsed parse i)
              then [Receive.OnMessage
                      (match i with
                       | Receive.Ws e => Receive.ws_chat_id e
                       | Receive.Hook e => default EmptyString (Receive.hk_chat_id e)
                       end)
                      (Receive.parsed parse i) id
                      (default EmptyString
                         (js_or (match i with
                                 | Receive.Ws e => Receive.ws_open_id e
                                 | Receive.Hook e => Receive.hk_open_id e
                                 end) (Some EmptyString)))]
              else []))
    end.
Proof.
  destruct i as [e|e]; simpl.
  - unfold Receive.ws_receive. by rewrite deliver_trace.
  - unfold Receive.hook_receive.
    destruct (truthy_opt (Receive.hk_message_id e) && truthy_opt (Receive.hk_chat_id e))
      eqn:Hg; [|done].
    rewrite deliver_trace.
    destruct (Receive.hk_message_id e) as [mid|]; [done|]. simpl in Hg. done.
Qed.

Lemma checked_carried (i : Receive.Inbound) (id : string) :
  Receive.checked_id i = Some id → Receive.carried_id i = Some id.
Proof.
  destruct i as [e|e]; simpl; [done|].
  by destruct (truthy_opt (Receive.hk_message_id e) && truthy_opt (Receive.hk_chat_id e)).
Qed.

(** The handler is only ever called with the id the event carries and a
    non-empty parsed text. *)
Lemma receive_invoked (cache : list string) (i : Receive.Inbound) (a : Receive.Action)
    (x : string) :
  a ∈ snd (Receive.receive parse cache i) → Receive.invoked_for x a = true →
  Receive.carried_id i = Some x ∧ truthy (Receive.parsed parse i) = true.
Proof.
  rewrite receive_trace. intros Ha Hx.
  destruct (Receive.checked_id i) as [id|] eqn:Hid; simpl in Ha.
  - apply checked_carried in Hid.
    destruct (Dedup.has cache id); simpl in Ha.
    + apply list_elem_of_singleton in Ha as ->. done.
    + destruct (truthy (Receive.parsed parse i)) eqn:Ht.
      * apply elem_of_cons in Ha as [->|Ha]; [done|].
        apply elem_of_cons in Ha as [->|Ha]; [done|].
        apply list_elem_of_singleton in Ha as ->. simpl in Hx.
        apply bool_decide_eq_true in Hx as ->. done.
      * apply elem_of_cons in Ha as [->|Ha]; [done|].
        apply list_elem_of_singleton in Ha as ->. done.
  - by apply elem_of_nil in Ha.
Qed.

Lemma run_not_invoked (x : string) (evs : list Receive.Inbound) (cache : list string) :
  (∀ j, j ∈ evs → Receive.carried_id j = Some x → truthy (Receive.parsed parse j) = false) →
  ∀ a, a ∈ snd (Receive.run parse cache evs) → Receive.invoked_for x a = false.
Proof.
  revert cache. induction evs as [|j evs IH]; intros cache Hevs a Ha; simpl in Ha.
  - by apply elem_of_nil in Ha.
  - apply elem_of_app in Ha as [Ha|Ha].
    + destruct (Receive.invoked_for x a) eqn:Hx; [|done].
      destruct (receive_invoked _ _ _ _ Ha Hx) as [Hid Ht].
      rewrite (Hevs j) in Ht; [done| by left | done].
    + eapply IH; [|done]. intros j' Hj'. apply Hevs. by right.
Qed.

End ReceiveFacts.

(** C10.  On either Feishu receive path the content of an event is parsed
    only after the dedup check has put its message id into the cache.  So
    an event that reaches the check with a new id [X] and whose content
    parses to the empty text is dropped without a handler call and leaves
    [X] in the cache; an event carrying [X] that comes next is discarded
    by the check (or by the guard of the webhook path) with the cache
    unchanged; and however many events follow, the handler is never
    called for [X] when the events carrying [X] are redeliveries of that
    same event. *)
Theorem receive_marks_before_parse
    (parse : option string → option (list string) → string)
    (cache : list string) (i : Receive.Inbound) (X : string) :
  Receive.checked_id i = Some X →
  X ∉ cache →
  Receive.parsed parse i = EmptyString →
  let r := Receive.receive parse cache i in
  (∀ (cache0 : list string) (j : Receive.Inbound) (content : option string),
     Receive.Parse content ∈ snd (Receive.receive parse cache0 j) →
     ∃ id rest,
       snd (Receive.receive parse cache0 j)
       = Receive.Dedup id false :: Receive.Parse content :: rest
       ∧ id ∈ fst (Receive.receive parse cache0 j))
  ∧ snd r = [Receive.Dedup X false; Receive.Parse (Receive.content_of i)]
  ∧ X ∈ fst r
  ∧ (∀ j, Receive.carried_id j = Some X →
       Receive.receive parse (fst r) j = (fst r, [Receive.Dedup X true])
       ∨ Receive.receive parse (fst r) j = (fst r, []))
  ∧ (∀ evs : list Receive.Inbound,
       (∀ j, j ∈ evs → Receive.carried_id j = Some X → j = i) →
       ∀ a, a ∈ snd (Receive.run parse (fst r) evs) → Receive.invoked_for X a = false).
Proof.
  intros Hid Hnew Hempty r.
  assert (X ∈ fst r ∧ snd r = [Receive.Dedup X false; Receive.Parse (Receive.content_of i)])
    as [Hin Htrace].
  { subst r. rewrite receive_trace, Hid.
    apply has_false in Hnew as Hh. rewrite Hh, Hempty. simpl.
    split; [|done]. by apply isMessageProcessed_absent. }
  split; [|split; [done|split; [done|split]]].
  - intros cache0 j content Hparse. rewrite receive_trace in *.
    destruct (Receive.checked_id j) as [id|]; simpl in *; [|by apply elem_of_nil in Hparse].
    destruct (Dedup.has cache0 id) eqn:Hh; simpl in *.
    + apply list_elem_of_singleton in Hparse. done.
    + apply has_false in Hh.
      apply elem_of_cons in Hparse as [Heq|Hparse]; [done|].
      apply elem_of_cons in Hparse as [Heq|Hparse].
      * injection Heq as ->. eexists _, _. split; [done|].
        by apply isMessageProcessed_absent.
      * destruct (truthy (Receive.parsed parse j)).
        -- apply list_elem_of_singleton in Hparse. done.
        -- by apply elem_of_nil in Hparse.
  - intros j Hj. rewrite receive_trace.
    destruct (Receive.checked_id j) as [id|] eqn:Hc; [|by right].
    apply checked_carried in Hc. assert (id = X) as -> by congruence.
    apply has_true in Hin as ->. by left.
  - intros evs Hevs. apply run_not_invoked.
    intros j Hj Hc. rewrite (Hevs j Hj Hc), Hempty. done.
Qed.

Lemma receive_marks_before_parse_witness :
  let parse := λ (content : option string) (_ : option (list string)),
                 default EmptyString content in
  let i := Receive.Hook (Receive.mkHook (Some "om_1"%string) (Some "oc_1"%string)
                           None (Some EmptyString) None) in
  Receive.checked_id i = Some "om_1"%string
  ∧ ("om_1"%string ∉ ["om_0"%string])
  ∧ Receive.parsed parse i = EmptyString
  ∧ "om_1"%string ∈ fst (Receive.receive parse ["om_0"%string] i).
Proof.
  intros parse i.
  assert ("om_1"%string ∉ ["om_0"%string]) as Hnew.
  { intros H%list_elem_of_singleton. discriminate H. }
  split; [reflexivity|]. split; [exact Hnew|]. split; [reflexivity|].
  exact (proj1 (proj2 (proj2
           (receive_marks_before_parse parse ["om_0"%string] i "om_1"%string
              eq_refl Hnew eq_refl)))).
Defined.

(** * Further properties of the code *)

(** ** Dedup cache: how long an id stays *)

(** A set without repetitions and within the ceiling satisfies the run
    invariant with itself as the log. *)
Lemma dedup_inv_self (s : list string) :
  NoDup s → Dedup.size s ≤ Dedup.CEILING → Dedup.inv s s.
Proof.
  intros Hnd Hsz. split; [done|].
  unfold Dedup.size, Dedup.CEILING in Hsz.
  replace (length s - 2000)%nat with 0%nat by lia. by rewrite drop_0.
Qed.

Lemma inserted_from_length (c : Dedup.Client) (ids s : list string) :
  (length (Dedup.inserted_from c s ids) ≤ length ids)%nat.
Proof.
  revert s. induction ids as [|x ids IH]; intros s; simpl; [done|].
  rewrite length_app. specialize (IH (snd (Dedup.isMessageProcessed c s x))).
  destruct (fst (Dedup.isMessageProcessed c s x)); simpl; lia.
Qed.

(** The newest member of the set survives a run that inserts fewer than
    2000 ids. *)
Lemma newest_survives (c : Dedup.Client) (s ids : list string) (x : string) :
  NoDup (s ++ [x]) → Dedup.size (s ++ [x]) ≤ Dedup.CEILING →
  (length (Dedup.inserted_from c (s ++ [x]) ids) < 2000)%nat →
  x ∈ Dedup.run_from c (s ++ [x]) ids.
Proof.
  intros Hnd Hsz Hins.
  destruct (dedup_inv_run c ids _ _ (dedup_inv_self _ Hnd Hsz)) as [_ ->].
  unfold Dedup.size, Dedup.CEILING in Hsz. rewrite length_app in Hsz. simpl in Hsz.
  rewrite !length_app. simpl.
  set (ins := Dedup.inserted_from c (s ++ [x]) ids) in *.
  rewrite <- (assoc_L (++)).
  rewrite drop_app_le by lia.
  apply elem_of_app. right.
  apply elem_of_app. left. by apply list_elem_of_singleton.
Qed.

(** After a check the checked id is the newest member whenever it was
    inserted by that check. *)
Lemma isMessageProcessed_newest (c : Dedup.Client) (s : list string) (x : string) :
  NoDup s → x ∉ s →
  ∃ s', snd (Dedup.isMessageProcessed c s x) = s' ++ [x].
Proof.
  intros Hnd Hx. rewrite isMessageProcessed_step by done.
  apply has_false in Hx as ->. simpl. case_bool_decide; eauto.
Qed.

Lemma run_from_inv_size (c : Dedup.Client) (ids s : list string) :
  NoDup s → Dedup.size s ≤ Dedup.CEILING →
  NoDup (Dedup.run_from c s ids) ∧ Dedup.size (Dedup.run_from c s ids) ≤ Dedup.CEILING.
Proof.
  intros Hnd Hsz.
  pose proof (dedup_inv_run c ids _ _ (dedup_inv_self _ Hnd Hsz)) as Hinv.
  split; [apply Hinv|by eapply dedup_inv_size].
Qed.

(** X1.  In either client, an id inserted by a check (one that answered
    [false]) is still a member, and so still answered [true], after any
    further checks that insert fewer than 2000 other ids: nothing is
    evicted before 2000 newer ids have come in. *)
Theorem dedup_id_outlives_1999_inserts (c : Dedup.Client) (pre ids : list string)
    (X : string) :
  let s := Dedup.run c pre in
  let s1 := snd (Dedup.isMessageProcessed c s X) in
  X ∉ s →
  (length (Dedup.inserted_from c s1 ids) < 2000)%nat →
  X ∈ Dedup.run_from c s1 ids
  ∧ Dedup.isMessageProcessed c (Dedup.run_from c s1 ids) X
    = (true, Dedup.run_from c s1 ids).
Proof.
  intros s s1 Hx Hins.
  destruct (run_from_inv_size c pre [] (NoDup_nil_2 (A:=string))) as [Hnd Hsz].
  { unfold Dedup.size, Dedup.CEILING. simpl. lia. }
  fold (Dedup.run c pre) in Hnd, Hsz. fold s in Hnd, Hsz.
  destruct (isMessageProcessed_newest c s X Hnd Hx) as [s' Hs'].
  destruct (run_from_inv_size c [X] s Hnd Hsz) as [Hnd1 Hsz1].
  simpl in Hnd1, Hsz1. fold s1 in Hnd1, Hsz1, Hs'.
  assert (X ∈ Dedup.run_from c s1 ids) as Hin.
  { revert Hins Hnd1 Hsz1. rewrite Hs'. intros. by apply newest_survives. }
  split; [done|]. by apply isMessageProcessed_present.
Qed.

Lemma dedup_id_outlives_1999_inserts_witness :
  let s := Dedup.run Dedup.Feishu ["m1"%string; "m2"%string] in
  let s1 := snd (Dedup.isMessageProcessed Dedup.Feishu s "m3"%string) in
  let ids := ["m4"%string; "m1"%string; "m5"%string] in
  ("m3"%string ∉ s)
  ∧ (length (Dedup.inserted_from Dedup.Feishu s1 ids) < 2000)%nat
  ∧ "m3"%string ∈ Dedup.run_from Dedup.Feishu s1 ids.
Proof.
  intros s s1 ids.
  assert ("m3"%string ∉ s) as Hx.
  { vm_compute. intros H. repeat (apply elem_of_cons in H as [H|H]; [discriminate H|]).
    by apply elem_of_nil in H. }
  assert (length (Dedup.inserted_from Dedup.Feishu s1 ids) < 2000)%nat as Hins.
  { vm_compute. lia. }
  split; [exact Hx|]. split; [exact Hins|].
  exact (proj1 (dedup_id_outlives_1999_inserts Dedup.Feishu
                  ["m1"%string; "m2"%string] ids "m3"%string Hx Hins)).
Defined.

(** ** Stream buffer: the platform message of a backend message *)

Lemma handleStreamUpdate_keeps_id (p : Stream.Platform) (now : Z)
    (buffers : gmap string Stream.MessageBuffer) (chatId msgId : string)
    (part : Stream.Part) (delta : option string)
    (m : string) (b : Stream.MessageBuffer) (id : string) :
  buffers !! m = Some b → Stream.feishuMsgId b = Some id → truthy id = true →
  ∃ b', fst (Stream.handleStreamUpdate p now buffers chatId msgId part delta) !! m = Some b'
        ∧ Stream.feishuMsgId b' = Some id.
Proof.
  intros Hb Hid Ht. unfold Stream.handleStreamUpdate.
  destruct (truthy msgId); simpl; [|eauto].
  destruct (Stream.is_text_or_reasoning (Stream.part_type part)); simpl; [|eauto].
  destruct (decide (m = msgId)) as [->|Hne].
  - unfold Stream.buffer_before. rewrite Hb.
    match goal with |- context [if ?c then _ else _] => destruct c end; simpl;
      rewrite lookup_insert_eq; eexists; (split; [done|]); [|done].
    unfold Stream.flush. simpl. rewrite Hid. simpl. rewrite Ht. simpl. done.
  - match goal with |- context [if ?c then _ else _] => destruct c end; simpl;
      rewrite lookup_insert_ne by done; eauto.
Qed.

Lemma handleStreamUpdate_edits_recorded (p : Stream.Platform) (now : Z)
    (buffers : gmap string Stream.MessageBuffer) (chatId msgId : string)
    (part : Stream.Part) (delta : option string)
    (b : Stream.MessageBuffer) (id : string) (o : Stream.Outbound) :
  buffers !! msgId = Some b → Stream.feishuMsgId b = Some id → truthy id = true →
  o ∈ snd (Stream.handleStreamUpdate p now buffers chatId msgId part delta) →
  ∃ text, o = Stream.EditMessage chatId id text.
Proof.
  intros Hb Hid Ht Ho.
  destruct (truthy msgId && Stream.is_text_or_reasoning (Stream.part_type part)) eqn:Hg.
  - apply andb_true_iff in Hg as [Hm Hty].
    rewrite handleStreamUpdate_calls in Ho by done.
    unfold Stream.buffer_before in Ho. rewrite Hb, Hid in Ho. simpl in Ho.
    rewrite Ht in Ho.
    match type of Ho with context [if ?c then _ else _] => destruct c end.
    + apply list_elem_of_singleton in Ho as ->. eauto.
    + by apply elem_of_nil in Ho.
  - rewrite handleStreamUpdate_guarded in Ho by done. by apply elem_of_nil in Ho.
Qed.

Lemma stream_run_app (fs1 fs2 : list Stream.Fragment)
    (buffers : gmap string Stream.MessageBuffer) :
  Stream.run buffers (fs1 ++ fs2) =
    (fst (Stream.run (fst (Stream.run buffers fs1)) fs2),
     snd (Stream.run buffers fs1) ++ snd (Stream.run (fst (Stream.run buffers fs1)) fs2)).
Proof.
  revert buffers. induction fs1 as [|f fs1 IH]; intros buffers; simpl.
  - by destruct (Stream.run buffers fs2).
  - rewrite IH. simpl. by rewrite <- (assoc_L (++)).
Qed.

Lemma stream_run_keeps_id (fs : list Stream.Fragment)
    (buffers : gmap string Stream.MessageBuffer)
    (m : string) (b : Stream.MessageBuffer) (id : string) :
  buffers !! m = Some b → Stream.feishuMsgId b = Some id → truthy id = true →
  ∃ b', fst (Stream.run buffers fs) !! m = Some b' ∧ Stream.feishuMsgId b' = Some id.
Proof.
  revert buffers b. induction fs as [|f fs IH]; intros buffers b Hb Hid Ht; simpl; [eauto|].
  destruct (handleStreamUpdate_keeps_id (Stream.f_platform f) (Stream.f_now f) buffers
              (Stream.f_chatId f) (Stream.f_msgId f) (Stream.f_part f) (Stream.f_delta f)
              m b id Hb Hid Ht) as (b1 & Hb1 & Hid1).
  by apply (IH _ b1).
Qed.

(** X2.  Once a platform message id is recorded for a backend message, no
    later fragment of any message changes it, and every platform call a
    later fragment of that backend message causes is an edit of that one
    platform message: a second message is never sent for it. *)
Theorem stream_recorded_id_is_final (fs : list Stream.Fragment)
    (buffers : gmap string Stream.MessageBuffer)
    (m : string) (b : Stream.MessageBuffer) (id : string) :
  buffers !! m = Some b → Stream.feishuMsgId b = Some id → truthy id = true →
  (∃ b', fst (Stream.run buffers fs) !! m = Some b' ∧ Stream.feishuMsgId b' = Some id)
  ∧ (∀ fs1 f fs2 o, fs = fs1 ++ f :: fs2 → Stream.f_msgId f = m →
       o ∈ snd (Stream.step (fst (Stream.run buffers fs1)) f) →
       ∃ text, o = Stream.EditMessage (Stream.f_chatId f) id text).
Proof.
  intros Hb Hid Ht. split; [by eapply stream_run_keeps_id|].
  intros fs1 f fs2 o _ Hm Ho.
  destruct (stream_run_keeps_id fs1 buffers m b id Hb Hid Ht) as (b1 & Hb1 & Hid1).
  unfold Stream.step in Ho. rewrite Hm in Ho.
  by eapply handleStreamUpdate_edits_recorded.
Qed.

Lemma stream_recorded_id_is_final_witness :
  let b := Stream.mkBuffer (Some "om_1"%string) "Hel"%string Stream.PText 1000 false in
  let buffers : gmap string Stream.MessageBuffer := {[ "msg_1"%string := b ]} in
  let f := Stream.mkFragment (Stream.mkPlatform (Returned None) Threw) 2000
             "oc_1"%string "msg_1"%string (Stream.mkPart Stream.PText None)
             (Some "lo"%string) in
  buffers !! "msg_1"%string = Some b
  ∧ Stream.feishuMsgId b = Some "om_1"%string
  ∧ truthy "om_1"%string = true
  ∧ ∃ b', fst (Stream.run buffers [f]) !! "msg_1"%string = Some b'
          ∧ Stream.feishuMsgId b' = Some "om_1"%string.
Proof.
  intros b buffers f.
  assert (buffers !! "msg_1"%string = Some b) as Hb by (vm_compute; reflexivity).
  split; [exact Hb|]. split; [reflexivity|]. split; [reflexivity|].
  exact (proj1 (stream_recorded_id_is_final [f] buffers "msg_1"%string b "om_1"%string
                  Hb eq_refl eq_refl)).
Defined.

(** ** The global event listener *)








(** The waits between reconnects. *)
Lemma retry_delay_bounds (retryCount : Z) :
  0 ≤ retryCount →
  5000 ≤ Listener.retry_delay retryCount ≤ 60000
  ∧ Listener.retry_delay retryCount ≤ Listener.retry_delay (retryCount + 1)
  ∧ (11 ≤ retryCount → Listener.retry_delay retryCount = 60000)
  ∧ (retryCount < 11 → Listener.retry_delay retryCount = 5000 * (retryCount + 1)).
Proof. intros H. unfold Listener.retry_delay. lia. Qed.

Lemma retry_delays_length (n : nat) (retryCount : Z) :
  length (Listener.retry_delays retryCount n) = n.
Proof. revert retryCount. induction n as [|n IH]; intros z; simpl; [done|]. by rewrite IH. Qed.

Lemma retry_delays_lookup (n : nat) (retryCount : Z) (k : nat) :
  (k < n)%nat →
  Listener.retry_delays retryCount n !! k
  = Some (Listener.retry_delay (retryCount + Z.of_nat k)).
Proof.
  revert retryCount k. induction n as [|n IH]; intros retryCount k Hk; [lia|].
  destruct k as [|k]; simpl.
  - f_equal. f_equal. lia.
  - rewrite IH by lia. f_equal. f_equal. lia.
Qed.

(** X5.  After a connection that succeeded, the k-th failure in a row
    (counted from 0) waits min(5 (k + 1), 60) seconds before the
    reconnect: 5 s after the first failure, never less than 5 s, never
    more than 60 s, never less than the wait before it, and exactly 60 s
    from the twelfth failure on. *)
Theorem listener_backoff_is_capped (n k : nat) (d : Z) :
  Listener.retry_delays 0 n !! k = Some d →
  d = Z.min (5000 * (Z.of_nat k + 1)) 60000
  ∧ 5000 ≤ d ≤ 60000
  ∧ ((11 ≤ k)%nat → d = 60000)
  ∧ (∀ d', Listener.retry_delays 0 n !! S k = Some d' → d ≤ d').
Proof.
  intros Hk.
  assert (k < n)%nat as Hlt.
  { apply lookup_lt_Some in Hk. by rewrite retry_delays_length in Hk. }
  rewrite retry_delays_lookup in Hk by done. injection Hk as <-.
  unfold Listener.retry_delay.
  split; [f_equal; lia|]. split; [lia|]. split; [lia|].
  intros d' Hd'.
  assert (S k < n)%nat as Hlt'.
  { apply lookup_lt_Some in Hd'. by rewrite retry_delays_length in Hd'. }
  rewrite retry_delays_lookup in Hd' by done. injection Hd' as <-.
  unfold Listener.retry_delay. lia.
Qed.

Lemma listener_backoff_is_capped_witness :
  Listener.retry_delays 0 14 !! 12%nat = Some 60000
  ∧ 5000 ≤ 60000 ≤ 60000.
Proof.
  split; [reflexivity|].
  exact (proj1 (proj2 (listener_backoff_is_capped 14 12 60000 eq_refl))).
Defined.

(** ** The streaming handler: routes, diagnostics, cleanup *)

Lemma resolve_cache_other (cache cache1 : gmap string string) (chatId other : string)
    (m : Router.Message) (r : Router.Result string) (calls : list Router.Call) :
  Router.resolve cache chatId m = (r, cache1, calls) → other ≠ chatId →
  cache1 !! other = cache !! other.
Proof.
  unfold Router.resolve. intros H Hne.
  destruct (cache !! chatId) as [old|]; [destruct (truthy old)|];
    try (injection H as <- <- <-; done);
    destruct (Router.createSession m) as [[new|]|e];
    try destruct (truthy new); injection H as <- <- <-;
    by rewrite ?lookup_insert_ne.
Qed.

(** The state after a message that is not a ping, in closed form. *)
Lemma handle_state (st : Router.State) (chatId : string) (m : Router.Message)
    (r : Router.Result string) (cache1 : gmap string string) (calls1 : list Router.Call) :
  Router.isPing m = false →
  Router.resolve (Router.sessionCache st) chatId m = (r, cache1, calls1) →
  fst (Router.handle st chatId m) =
    match r with
    | Router.Ok sid =>
        Router.mkState
          (if Router.invalidates m then delete chatId cache1 else cache1)
          (<[sid := Router.mkContext chatId (Router.senderId m)]>
             (Router.sessionToFeishuMap st))
    | Router.Err e =>
        Router.mkState
          (if bool_decide (Router.err_status e = Some 404)
           then delete chatId cache1 else cache1)
          (Router.sessionToFeishuMap st)
    end.
Proof.
  intros Hping Hres. unfold Router.handle, Router.invalidates. rewrite Hping, Hres.
  destruct r as [sid|e]; [destruct (Router.promptSession m) as [u|e]|];
    unfold Router.on_error; cbn [fst snd]; done.
Qed.

Lemma prompted_not_ping (st : Router.State) (chatId : string) (m : Router.Message)
    (sid : string) :
  Router.prompted (snd (Router.handle st chatId m)) = Some sid →
  Router.isPing m = false
  ∧ ∃ cache1 calls1,
      Router.resolve (Router.sessionCache st) chatId m = (Router.Ok sid, cache1, calls1).
Proof.
  intros Hp.
  destruct (Router.isPing m) eqn:Hping.
  { unfold Router.handle in Hp. by rewrite Hping in Hp. }
  split; [done|].
  destruct (Router.resolve (Router.sessionCache st) chatId m) as [[r cache1] calls1] eqn:Hres.
  pose proof (resolve_not_prompt _ _ _ _ _ _ Hres) as Hnp.
  destruct r as [sid'|e].
  - destruct (handle_resolved _ _ _ _ _ _ Hping Hres Hnp) as (Hu & _).
    rewrite Hu in Hp. injection Hp as ->. eauto.
  - rewrite (handle_unresolved _ _ _ _ _ _ Hres Hnp) in Hp. done.
Qed.

(** X6.  When the handler has submitted a message of a conversation to a
    session, the first streamed text of a new backend message of that
    session is sent, at once and whatever the clock shows, to that
    conversation: the route registered by the handler is the one the
    listener follows. *)
Theorem handler_route_carries_the_answer (st : Router.State) (chatId : string)
    (m : Router.Message) (sid : string)
    (p : Stream.Platform) (now : Z) (buffers : gmap string Stream.MessageBuffer)
    (msgId d : string) (text : option string) :
  Router.prompted (snd (Router.handle st chatId m)) = Some sid →
  truthy msgId = true → d ≠ EmptyString → buffers !! msgId = None →
  let routes := Router.sessionToFeishuMap (fst (Router.handle st chatId m)) in
  routes !! sid = Some (Router.mkContext chatId (Router.senderId m))
  ∧ snd (Listener.on_event (Listener.with_routes routes buffers)
           (Listener.mkTick p now
              (Listener.PartUpdated (Some sid) msgId
                 (Stream.mkPart Stream.PText text) (Some d))))
    = [Stream.SendMessage chatId d].
Proof.
  intros Hp Hm Hd Hfresh routes.
  destruct (prompted_not_ping _ _ _ _ Hp) as (Hping & cache1 & calls1 & Hres).
  destruct (resolve_ok _ _ _ _ _ _ Hres) as [Hsid _].
  assert (routes !! sid = Some (Router.mkContext chatId (Router.senderId m))) as Hroute.
  { subst routes. rewrite (handle_state _ _ _ _ _ _ Hping Hres). simpl.
    by rewrite lookup_insert_eq. }
  split; [done|].
  unfold Listener.on_event. simpl. rewrite Hsid. simpl. rewrite Hroute. simpl.
  rewrite handleStreamUpdate_calls by done.
  unfold Stream.buffer_before. rewrite Hfresh. simpl.
  rewrite accumulate_delta by done. simpl.
  change (EmptyString +:+ d) with d.
  apply truthy_true in Hd as Hd'. rewrite Hd'. done.
Qed.

Lemma handler_route_carries_the_answer_witness :
  let st := Router.mkState ∅ ∅ in
  let r := Router.handle st "oc_chat1"%string Router.first_message in
  let p := Stream.mkPlatform (Returned None) (Returned true) in
  Router.prompted (snd r) = Some "ses_1"%string
  ∧ truthy "msg_1"%string = true
  ∧ "Hi"%string ≠ EmptyString
  ∧ (∅ : gmap string Stream.MessageBuffer) !! "msg_1"%string = None
  ∧ snd (Listener.on_event
           (Listener.with_routes (Router.sessionToFeishuMap (fst r)) ∅)
           (Listener.mkTick p 7
              (Listener.PartUpdated (Some "ses_1"%string) "msg_1"%string
                 (Stream.mkPart Stream.PText None) (Some "Hi"%string))))
    = [Stream.SendMessage "oc_chat1"%string "Hi"%string].
Proof.
  intros st r p.
  assert (Router.prompted (snd r) = Some "ses_1"%string) as Hp by (vm_compute; reflexivity).
  assert ("Hi"%string ≠ EmptyString) as Hd by discriminate.
  split; [exact Hp|]. split; [reflexivity|]. split; [exact Hd|]. split; [reflexivity|].
  exact (proj2 (handler_route_carries_the_answer st "oc_chat1"%string Router.first_message
                  "ses_1"%string p 7 ∅ "msg_1"%string "Hi"%string None
                  Hp eq_refl Hd eq_refl)).
Defined.

Lemma resolve_calls_silent (cache cache1 : gmap string string) (chatId : string)
    (m : Router.Message) (r : Router.Result string) (calls : list Router.Call) :
  Router.resolve cache chatId m = (r, cache1, calls) →
  Report.sent calls = [] ∧ List.filter Report.is_remove calls = [].
Proof.
  unfold Router.resolve. intros H.
  destruct (cache !! chatId) as [old|]; [destruct (truthy old)|];
    try (injection H as <- <- <-; done);
    destruct (Router.createSession m) as [[new|]|e];
    try destruct (truthy new); injection H as <- <- <-; done.
Qed.

Lemma finally_filters (m : Router.Message) (r : option string) :
  Report.sent (Router.finally m r) = []
  ∧ List.filter Report.is_remove (Router.finally m r) = Router.finally m r.
Proof. unfold Router.finally. by destruct (truthy (Router.messageId m) && truthy_opt r). Qed.

(** X7.  For a message that is not a ping the handler sends the user
    exactly one diagnostic when the session could not be obtained or the
    prompt was refused, and nothing when the prompt was accepted; on every
    one of these paths the loading reaction is removed again as the last
    call, exactly when one was added and its id returned. *)
Theorem handler_reports_once_and_cleans_up (st : Router.State) (chatId : string)
    (m : Router.Message) (r : Router.Result string)
    (cache1 : gmap string string) (calls1 : list Router.Call) :
  Router.isPing m = false →
  Router.resolve (Router.sessionCache st) chatId m = (r, cache1, calls1) →
  let calls := snd (Router.handle st chatId m) in
  let reactionId := if truthy (Router.messageId m) then Router.reaction m else None in
  Report.sent calls =
    match r with
    | Router.Ok _ =>
        match Router.promptSession m with
        | Router.Ok _ => []
        | Router.Err e => [Report.diagnostic chatId e]
        end
    | Router.Err e => [Report.diagnostic chatId e]
    end
  ∧ List.filter Report.is_remove calls =
      (if truthy_opt reactionId
       then [Router.RemoveReaction (Router.messageId m) (default EmptyString reactionId)]
       else [])
  ∧ ∃ front, calls = front ++ List.filter Report.is_remove calls.
Proof.
  intros Hping Hres calls reactionId. subst calls.
  destruct (resolve_calls_silent _ _ _ _ _ _ Hres) as [Hs1 Hr1].
  assert (List.filter Report.is_remove (Router.finally m reactionId) =
          (if truthy_opt reactionId
           then [Router.RemoveReaction (Router.messageId m) (default EmptyString reactionId)]
           else [])) as Hfin.
  { subst reactionId. unfold Router.finally.
    destruct (truthy (Router.messageId m)); simpl; [|done].
    by destruct (truthy_opt (Router.reaction m)). }
  destruct (finally_filters m reactionId) as [Hfs Hfr].
  unfold Router.handle. rewrite Hping, Hres. fold reactionId.
  unfold Report.sent in *.
  destruct r as [sid|e]; [destruct (Router.promptSession m) as [u|e]|];
    unfold Router.on_error; cbn [fst snd];
    rewrite !List.filter_app, Hs1, Hr1, Hfs, Hfr;
    (split; [by destruct (truthy (Router.messageId m))|]);
    (split; [rewrite <- Hfin; by destruct (truthy (Router.messageId m))|]);
    simpl; rewrite ?app_nil_r.
  - exists ((if truthy (Router.messageId m) then [Router.AddReaction (Router.messageId m)]
             else []) ++ calls1 ++ [Router.PromptSession sid (Router.text m)]).
    destruct (truthy (Router.messageId m)); simpl; by rewrite <- ?(assoc_L (++)).
  - exists ((if truthy (Router.messageId m) then [Router.AddReaction (Router.messageId m)]
             else []) ++ calls1 ++ [Router.PromptSession sid (Router.text m);
                                    Report.diagnostic chatId e]).
    destruct (truthy (Router.messageId m)); simpl; by rewrite <- ?(assoc_L (++)).
  - exists ((if truthy (Router.messageId m) then [Router.AddReaction (Router.messageId m)]
             else []) ++ calls1 ++ [Report.diagnostic chatId e]).
    destruct (truthy (Router.messageId m)); simpl; by rewrite <- ?(assoc_L (++)).
Qed.

Lemma handler_reports_once_and_cleans_up_witness :
  let st := Router.mkState ∅ ∅ in
  Router.isPing Router.second_message = false
  ∧ Router.resolve (Router.sessionCache st) "oc_chat1"%string Router.second_message
    = (Router.Ok "ses_x"%string, {[ "oc_chat1"%string := "ses_x"%string ]},
       [Router.CreateSession "Chat hat1 [10:00:05]"%string])
  ∧ Report.sent (snd (Router.handle st "oc_chat1"%string Router.second_message))
    = [Router.SendMessage "oc_chat1"%string "❌ Error: Not Found"%string].
Proof.
  intros st.
  assert (Router.resolve (Router.sessionCache st) "oc_chat1"%string Router.second_message
          = (Router.Ok "ses_x"%string, {[ "oc_chat1"%string := "ses_x"%string ]},
             [Router.CreateSession "Chat hat1 [10:00:05]"%string])) as Hres
    by (vm_compute; reflexivity).
  split; [reflexivity|]. split; [exact Hres|].
  exact (proj1 (handler_reports_once_and_cleans_up st "oc_chat1"%string
                  Router.second_message _ _ _ eq_refl Hres)).
Defined.

(** X8.  Handling a message touches the session binding of its own
    conversation only.  When no session id can be obtained for a
    conversation without a binding (the backend call fails or gives no
    id) nothing is bound and no prompt is submitted, so that the next
    message of the conversation asks the backend for a session again. *)
Theorem router_binding_is_per_conversation (st : Router.State) (chatId : string)
    (m : Router.Message) :
  (∀ other, other ≠ chatId →
     Router.sessionCache (fst (Router.handle st chatId m)) !! other
     = Router.sessionCache st !! other)
  ∧ (Router.isPing m = false →
     Router.sessionCache st !! chatId = None →
     (∀ new, Router.createSession m = Router.Ok (Some new) → truthy new = false) →
     Router.sessionCache (fst (Router.handle st chatId m)) !! chatId = None
     ∧ Router.prompted (snd (Router.handle st chatId m)) = None
     ∧ ∀ m2 new, Router.isPing m2 = false →
         Router.createSession m2 = Router.Ok (Some new) → truthy new = true →
         Router.created (snd (Router.handle (fst (Router.handle st chatId m)) chatId m2))
         = 1%nat
         ∧ Router.prompted (snd (Router.handle (fst (Router.handle st chatId m)) chatId m2))
           = Some new).
Proof.
  split.
  - intros other Hne. destruct (Router.isPing m) eqn:Hping.
    { unfold Router.handle. by rewrite Hping. }
    destruct (Router.resolve (Router.sessionCache st) chatId m) as [[r cache1] calls1]
      eqn:Hres.
    rewrite (handle_state _ _ _ _ _ _ Hping Hres).
    pose proof (resolve_cache_other _ _ _ other _ _ _ Hres Hne) as Hc.
    destruct r as [sid|e]; simpl;
      match goal with |- context [if ?c then _ else _] => destruct c end;
      by rewrite ?lookup_delete_ne.
  - intros Hping Hnone Hfail.
    assert (∃ e, Router.resolve (Router.sessionCache st) chatId m
                 = (Router.Err e, Router.sessionCache st,
                    [Router.CreateSession
                       (Router.uniqueTitle chatId (Router.timeString m))])) as [e Hres].
    { unfold Router.resolve. rewrite Hnone.
      destruct (Router.createSession m) as [[new|]|e] eqn:Hc; eauto.
      rewrite (Hfail new eq_refl). eauto. }
    assert (Router.sessionCache (fst (Router.handle st chatId m)) !! chatId = None) as Hgone.
    { rewrite (handle_state _ _ _ _ _ _ Hping Hres). simpl.
      case_bool_decide; [apply lookup_delete_eq|done]. }
    split; [done|]. split.
    + by apply (handle_unresolved _ _ _ _ _ _ Hres).
    + intros m2 new Hp2 Hc2 Ht2.
      pose proof (resolve_create _ _ _ m2 Hgone Hc2 Ht2) as Hres2.
      destruct (handle_resolved _ _ _ _ _ _ Hp2 Hres2 eq_refl) as (Hu & Hn & _).
      split; [by rewrite Hn|done].
Qed.

Lemma router_binding_is_per_conversation_witness :
  let st := Router.mkState {[ "oc_chat2"%string := "ses_9"%string ]} ∅ in
  "oc_chat2"%string ≠ "oc_chat1"%string
  ∧ Router.sessionCache (fst (Router.handle st "oc_chat1"%string Router.second_message))
      !! "oc_chat2"%string
    = Some "ses_9"%string.
Proof.
  intros st.
  assert ("oc_chat2"%string ≠ "oc_chat1"%string) as Hne by discriminate.
  split; [exact Hne|].
  exact (proj1 (router_binding_is_per_conversation st "oc_chat1"%string
                  Router.second_message) "oc_chat2"%string Hne).
Defined.

(** ** The token lifecycle: refresh, configuration, requests *)

(** X9.  A refresh that settles at time [now] with an access token and a
    lifetime of [expires_in] seconds (3600 when the response names none)
    makes every call of [ensureValidToken] return without a refresh until
    60 s before the end of that lifetime; from then on a call posts a
    refresh again, with the refresh token of the response when it carried
    one and with the old one otherwise. *)
Theorem refresh_buys_lifetime_minus_margin (c : Token.TeamsClient)
    (r : Token.TokenResponse) (now now' : Z) (tok : string) :
  Token.ensureValidToken c now = Token.StartRefresh →
  Token.rs_access_token r = Some tok → truthy tok = true →
  let c' := Token.refreshAccessToken_finish c (Returned r) now in
  let lifetime := Token.expires_in_or_default (Token.rs_expires_in r) in
  (now' < now + lifetime * 1000 - 60000 →
   Token.ensureValidToken c' now' = Token.ReturnFresh)
  ∧ (now + lifetime * 1000 - 60000 ≤ now' →
     Token.ensureValidToken c' now' = Token.StartRefresh
     ∧ ∃ rq, Token.refreshAccessToken_start c' = Returned rq
             ∧ Token.rq_refresh_token rq
               = default EmptyString
                   (js_or (Token.rs_refresh_token r) (Token.refreshToken c))).
Proof.
  intros Hstale Htok Ht c' lifetime.
  rewrite ensureValidToken_cases in Hstale.
  assert (truthy_opt (Token.refreshToken c) = true
          ∧ truthy (Token.client_id (Token.config c)) = true) as [Hr Hc].
  { destruct (truthy_opt (Token.accessToken c) && bool_decide _); [done|].
    destruct (truthy_opt (Token.refreshToken c)); [|by destruct (truthy_opt _)].
    destruct (truthy (Token.client_id (Token.config c))); [done|].
    by destruct (truthy_opt (Token.accessToken c)). }
  assert (truthy_opt (Token.refreshToken c') = true) as Hr'.
  { subst c'. simpl. unfold js_or.
    by destruct (truthy_opt (Token.rs_refresh_token r)) eqn:E. }
  rewrite !ensureValidToken_cases. subst c' lifetime. simpl in *.
  rewrite Htok. simpl. rewrite Ht. simpl. split.
  - intros Hnow. by rewrite bool_decide_eq_true_2.
  - intros Hnow. rewrite bool_decide_eq_false_2 by lia. rewrite Hr', Hc. simpl.
    split; [done|].
    unfold Token.refreshAccessToken_start. simpl. rewrite Hr', Hc. simpl. eauto.
Qed.

Lemma refresh_buys_lifetime_minus_margin_witness :
  let r := Token.mkResponse (Some "token-2"%string) None None in
  Token.ensureValidToken Token.expiring_client 1000000 = Token.StartRefresh
  ∧ Token.rs_access_token r = Some "token-2"%string
  ∧ truthy "token-2"%string = true
  ∧ 4540499 < 1000500 + 3600 * 1000 - 60000
  ∧ Token.ensureValidToken
      (Token.refreshAccessToken_finish Token.expiring_client (Returned r) 1000500)
      4540499 = Token.ReturnFresh.
Proof.
  intros r. split; [reflexivity|]. split; [reflexivity|]. split; [reflexivity|].
  split; [reflexivity|].
  exact (proj1 (refresh_buys_lifetime_minus_margin Token.expiring_client r
                  1000500 4540499 "token-2"%string eq_refl eq_refl eq_refl) eq_refl).
Defined.

Lemma can_refresh_finish (c : Token.TeamsClient) (res : Outcome Token.TokenResponse)
    (now : Z) :
  Config.can_refresh c → Config.can_refresh (Token.refreshAccessToken_finish c res now).
Proof.
  intros [Hr Hc]. destruct res as [r|]; [|done]. split; simpl; [|done].
  unfold js_or. by destruct (truthy_opt (Token.rs_refresh_token r)) eqn:E.
Qed.

Lemma token_available_step (s : Token.Sys) (e : Token.Event) :
  Config.token_available s → Config.token_available (Token.step s e).
Proof.
  intros H. pose proof H as [Hav Hfl]. destruct e as [now|i res now]; simpl.
  - rewrite ensureValidToken_cases.
    destruct (truthy_opt (Token.accessToken (Token.client s)) && bool_decide _);
      [done|].
    destruct (truthy_opt (Token.refreshToken (Token.client s))) eqn:Hr;
      [|by destruct (truthy_opt (Token.accessToken (Token.client s)))].
    destruct (truthy (Token.client_id (Token.config (Token.client s)))) eqn:Hc;
      [|by destruct (truthy_opt (Token.accessToken (Token.client s)))].
    simpl. destruct (Token.refreshAccessToken_start (Token.client s)); [|done].
    split; simpl; [done|]. right. done.
  - destruct (Token.in_flight s !! i) as [rq|] eqn:Hi; [|done].
    assert (Config.can_refresh (Token.client s)) as Hcan.
    { destruct Hfl as [Hnil|?]; [|done]. by rewrite Hnil in Hi. }
    split; simpl; right; by apply can_refresh_finish.
Qed.

Lemma token_available_run (es : list Token.Event) (s : Token.Sys) :
  Config.token_available s → Config.token_available (Token.run s es).
Proof.
  revert s. unfold Token.run. induction es as [|e es IH]; intros s Hs; simpl; [done|].
  apply IH. by apply token_available_step.
Qed.

(** X10.  A client built from options that [parseTeamsConfig] accepts
    never throws the no-access-token error: not at its first call of
    [ensureValidToken], and not after any sequence of calls and of
    refreshes that succeed, fail or come back without a token. *)
Theorem accepted_config_never_lacks_token (o : Config.TeamsOptions)
    (p : Config.ParsedTeams) (es : list Token.Event) (now : Z) :
  Config.parseTeamsConfig o = inr p →
  Token.ensureValidToken
    (Token.client (Token.run (Token.start (Token.new_client (Config.teams p))) es)) now
  ≠ Token.ThrowNoAccessToken.
Proof.
  intros Hparse.
  assert (Config.token_available (Token.start (Token.new_client (Config.teams p)))) as Hinit.
  { unfold Config.parseTeamsConfig in Hparse.
    destruct (truthy_opt (Config.o_client_id o)) eqn:Hid; [|done]. simpl in Hparse.
    destruct (negb (truthy_opt (Config.o_access_token o))
              && negb (truthy_opt (Config.o_refresh_token o))) eqn:Htok; [done|].
    injection Hparse as <-. split; simpl; [|by left].
    unfold Config.can_refresh, js_or. simpl.
    destruct (Config.o_client_id o) as [cid|]; [|done]. simpl in *.
    destruct (truthy_opt (Config.o_access_token o)) eqn:Hacc; simpl in *; [by left|].
    right. by destruct (truthy_opt (Config.o_refresh_token o)). }
  destruct (token_available_run es _ Hinit) as [Hav _].
  rewrite ensureValidToken_cases.
  destruct (truthy_opt (Token.accessToken _) && bool_decide _); [done|].
  destruct Hav as [->|[-> ->]]; simpl; [|done].
  by destruct (truthy_opt (Token.refreshToken _) && truthy _).
Qed.

Lemma accepted_config_never_lacks_token_witness :
  let o := Config.mkTeamsOptions (Some "client-1"%string) None None None
             (Some "refresh-1"%string) None None in
  let p := Config.mkParsedTeams
             (Token.mkConfig "client-1"%string None (Some "common"%string) None
                (Some "refresh-1"%string)) 3000 None in
  let es := [Token.Invoke 10; Token.Settle 0 (Returned (Token.mkResponse None None None)) 20] in
  Config.parseTeamsConfig o = inr p
  ∧ Token.ensureValidToken
      (Token.client (Token.run (Token.start (Token.new_client (Config.teams p))) es)) 30
    ≠ Token.ThrowNoAccessToken.
Proof.
  intros o p es.
  assert (Config.parseTeamsConfig o = inr p) as Hparse by reflexivity.
  split; [exact Hparse|].
  exact (accepted_config_never_lacks_token o p es 30 Hparse).
Defined.

(** X11.  A Teams [sendMessage] whose token cannot be made valid (no token
    at all, or the refresh post fails) answers [null] without the message
    request going out, and never throws; after a refresh that succeeded
    the request goes out with the token of the refresh response, not with
    the stale one. *)
Theorem teams_send_needs_valid_token (c : Token.TeamsClient) (now later : Z)
    (refresh : Outcome Token.TokenResponse) (chatId text : string)
    (network : Outcome (option string)) :
  let r := TeamsApi.sendMessage c now refresh later chatId text network in
  let ex := fst r in
  snd r ≠ Threw
  ∧ (TeamsApi.ex_sent ex = None → snd r = Returned Send.Null)
  ∧ (Token.ensureValidToken c now = Token.ThrowNoAccessToken →
     TeamsApi.ex_sent ex = None ∧ TeamsApi.ex_refresh ex = None)
  ∧ (Token.ensureValidToken c now = Token.StartRefresh → refresh = Threw →
     TeamsApi.ex_sent ex = None ∧ TeamsApi.ex_client ex = c)
  ∧ (∀ res tok, Token.ensureValidToken c now = Token.StartRefresh →
       refresh = Returned res → Token.rs_access_token res = Some tok →
       TeamsApi.ex_sent ex = Some ("Bearer "%string +:+ tok)
       ∧ Token.accessToken (TeamsApi.ex_client ex) = Some tok).
Proof.
  intros r ex. subst r ex. unfold TeamsApi.sendMessage. cbn [fst snd].
  split; [|split; [|split; [|split]]].
  - unfold Send.teams_sendMessage.
    destruct (TeamsApi.ex_result _) as [o|]; [|done]. by destruct (js_or o None).
  - unfold TeamsApi.request.
    destruct (Token.ensureValidToken c now); simpl; try done.
    destruct (Token.refreshAccessToken_start c); simpl; [|done].
    by destruct refresh.
  - intros Hth. unfold TeamsApi.request. by rewrite Hth.
  - intros Hst ->. unfold TeamsApi.request. rewrite Hst.
    by destruct (Token.refreshAccessToken_start c).
  - intros res tok Hst -> Htok. unfold TeamsApi.request. rewrite Hst.
    rewrite ensureValidToken_cases in Hst.
    assert (truthy_opt (Token.refreshToken c) = true
            ∧ truthy (Token.client_id (Token.config c)) = true) as [Hr Hc].
    { destruct (truthy_opt (Token.accessToken c) && bool_decide _); [done|].
      destruct (truthy_opt (Token.refreshToken c)); [|by destruct (truthy_opt _)].
      destruct (truthy (Token.client_id (Token.config c))); [done|].
      by destruct (truthy_opt (Token.accessToken c)). }
    destruct (refreshAccessToken_start_returns c Hr Hc) as [rq ->]. simpl.
    unfold TeamsApi.bearer. simpl. by rewrite Htok.
Qed.

Lemma teams_send_needs_valid_token_witness :
  let r := TeamsApi.sendMessage Token.expiring_client 1000000 Threw 1000500
             "chat-1"%string "Hello"%string (Returned (Some "msg-1"%string)) in
  Token.ensureValidToken Token.expiring_client 1000000 = Token.StartRefresh
  ∧ TeamsApi.ex_sent (fst r) = None
  ∧ snd r = Returned Send.Null.
Proof.
  intros r.
  pose proof (teams_send_needs_valid_token Token.expiring_client 1000000 1000500 Threw
                "chat-1"%string "Hello"%string (Returned (Some "msg-1"%string)))
    as (_ & Hnull & _ & Hfail & _).
  split; [reflexivity|].
  split; [exact (proj1 (Hfail eq_refl eq_refl))|].
  exact (Hnull (proj1 (Hfail eq_refl eq_refl))).
Defined.

(** ** Plugin configuration *)

Lemma prefix_http_nonempty (u : string) :
  String.prefix "http"%string u = true → truthy u = true.
Proof. by destruct u. Qed.

(** X12.  A Feishu configuration that [parseFeishuConfig] returns has a
    non-empty app id and secret and a callback URL that, when present,
    starts with "http" (a URL without scheme got "http://" in front, one
    with a scheme was kept as written); parsing the options it holds
    gives the same configuration again. *)
Theorem feishu_config_is_normalised (o : Config.FeishuOptions) (c : Config.FeishuConfig) :
  Config.parseFeishuConfig o = inr c →
  Config.app_id c ≠ EmptyString
  ∧ Config.app_secret c ≠ EmptyString
  ∧ (∀ u, Config.callback_url c = Some u →
       String.prefix "http"%string u = true
       ∧ ∃ raw, Config.f_callback_url o = Some raw
                ∧ (u = raw ∨ (u = "http://"%string +:+ raw
                              ∧ String.prefix "http"%string raw = false)))
  ∧ Config.parseFeishuConfig (Config.feishu_options c) = inr c.
Proof.
  unfold Config.parseFeishuConfig. intros H.
  destruct (Config.f_app_id o) as [aid|]; [|done].
  destruct (Config.f_app_secret o) as [sec|]; [|by rewrite orb_true_r in H].
  simpl in H. destruct (truthy aid) eqn:Ha; [|done].
  destruct (truthy sec) eqn:Hs; [|done]. simpl in H. injection H as <-. simpl.
  assert (∀ u, Config.callbackUrl (Config.f_callback_url o) = Some u →
            String.prefix "http"%string u = true
            ∧ ∃ raw, Config.f_callback_url o = Some raw
                     ∧ (u = raw ∨ (u = "http://"%string +:+ raw
                                   ∧ String.prefix "http"%string raw = false))) as Hcb.
  { intros u Hu. unfold Config.callbackUrl in Hu.
    destruct (Config.f_callback_url o) as [raw|]; [|done].
    destruct (truthy raw); [|done].
    destruct (String.prefix "http"%string raw) eqn:Hp; injection Hu as <-.
    - split; [done|]. eauto.
    - split; [done|]. eauto. }
  split; [by apply truthy_true|]. split; [by apply truthy_true|]. split; [done|].
  rewrite Ha, Hs. simpl. f_equal.
  assert (truthy (default EmptyString (js_or (Config.f_mode o) (Some "ws"%string))) = true)
    as Hm.
  { unfold js_or. destruct (Config.f_mode o) as [md|]; simpl; [|done].
    by destruct (truthy md) eqn:E. }
  f_equal.
  - set (md := default EmptyString (js_or (Config.f_mode o) (Some "ws"%string))) in *.
    unfold js_or. simpl. by rewrite Hm.
  - destruct (Config.callbackUrl (Config.f_callback_url o)) as [u|] eqn:Hu; [|done].
    destruct (Hcb u eq_refl) as [Hp _]. simpl.
    by rewrite (prefix_http_nonempty u Hp), Hp.
Qed.

Lemma feishu_config_is_normalised_witness :
  let o := Config.mkFeishuOptions (Some "cli_1"%string) (Some "secret"%string) None
             (Some "example.com/hook"%string) None None None in
  let c := Config.mkFeishuConfig "cli_1"%string "secret"%string "ws"%string
             (Some "http://example.com/hook"%string) None None None in
  Config.parseFeishuConfig o = inr c
  ∧ Config.parseFeishuConfig (Config.feishu_options c) = inr c.
Proof.
  intros o c.
  assert (Config.parseFeishuConfig o = inr c) as Hparse by reflexivity.
  split; [exact Hparse|].
  exact (proj2 (proj2 (proj2 (feishu_config_is_normalised o c Hparse)))).
Defined.

(** ** The conversation queue: progress *)

(** The awaited task of a task is an earlier task of the same
    conversation. *)
Lemma previous_is_earlier_same_chat (st : Queue.State) (j p : nat) (tj : Queue.Task) :
  Queue.inv st → Queue.tasks st !! j = Some tj → Queue.previousTask tj = Some p →
  (p < j)%nat ∧ ∃ tp, Queue.tasks st !! p = Some tp ∧ Queue.chat tp = Queue.chat tj.
Proof.
  intros Hinv Hj Hprev.
  pose proof (Queue.inv_previous st Hinv j tj Hj) as Hlast.
  rewrite Hprev in Hlast. simpl in Hlast. destruct Hlast as [Hp _].
  assert (p < j)%nat as Hpj.
  { apply lookup_lt_Some in Hp. rewrite length_take in Hp. lia. }
  split; [done|].
  rewrite lookup_take_lt in Hp by done. rewrite list_lookup_fmap in Hp.
  destruct (Queue.tasks st !! p) as [tp|]; [|done].
  injection Hp as Hp. eauto.
Qed.

Lemma least_unsettled_below (ts : list Queue.Task) (n : nat) :
  (∀ i ti, (i < n)%nat → ts !! i = Some ti → Queue.settled (Queue.status ti) = true)
  ∨ ∃ j0 t0, ts !! j0 = Some t0 ∧ Queue.settled (Queue.status t0) = false
             ∧ ∀ i ti, (i < j0)%nat → ts !! i = Some ti →
                       Queue.settled (Queue.status ti) = true.
Proof.
  induction n as [|n [IH|IH]]; [left; intros; lia| |by right].
  destruct (ts !! n) as [t|] eqn:Hn.
  - destruct (Queue.settled (Queue.status t)) eqn:Hs.
    + left. intros i ti Hi Hti. destruct (decide (i = n)) as [->|Hne].
      * congruence.
      * apply (IH i ti); [lia|done].
    + right. exists n, t. eauto.
  - left. intros i ti Hi Hti. destruct (decide (i = n)) as [->|Hne].
    + congruence.
    + apply (IH i ti); [lia|done].
Qed.

Lemma least_unsettled (ts : list Queue.Task) (j : nat) (tj : Queue.Task) :
  ts !! j = Some tj → Queue.settled (Queue.status tj) = false →
  ∃ j0 t0, ts !! j0 = Some t0 ∧ Queue.settled (Queue.status t0) = false
           ∧ ∀ i ti, (i < j0)%nat → ts !! i = Some ti →
                     Queue.settled (Queue.status ti) = true.
Proof.
  intros Hj Hun. destruct (least_unsettled_below ts (S j)) as [Hall|Hex]; [|done].
  rewrite (Hall j tj) in Hun; [done|lia|done].
Qed.

(** X13.  In every reachable state a task whose earlier tasks of the same
    conversation have all settled is not held up by anything else: if it
    waits it can begin, whatever the tasks of other conversations are
    doing, and if it runs it can finish.  So whenever some task has not
    settled, some task can take a step: the chain never deadlocks. *)
Theorem queue_never_deadlocks (st : Queue.State) :
  Queue.reachable st →
  (∀ j tj,
     Queue.tasks st !! j = Some tj → Queue.settled (Queue.status tj) = false →
     (∀ i ti, (i < j)%nat → Queue.tasks st !! i = Some ti →
              Queue.chat ti = Queue.chat tj → Queue.settled (Queue.status ti) = true) →
     (Queue.status tj = Queue.Waiting ∧ is_Some (Queue.step st (Queue.Begin j)))
     ∨ (Queue.status tj = Queue.Running
        ∧ ∀ ok, is_Some (Queue.step st (Queue.Finish j ok))))
  ∧ ((∃ j tj, Queue.tasks st !! j = Some tj ∧ Queue.settled (Queue.status tj) = false) →
     ∃ j, is_Some (Queue.step st (Queue.Begin j))
          ∨ is_Some (Queue.step st (Queue.Finish j true))).
Proof.
  intros Hreach. pose proof (inv_reachable st Hreach) as Hinv.
  assert (∀ j tj,
     Queue.tasks st !! j = Some tj → Queue.settled (Queue.status tj) = false →
     (∀ i ti, (i < j)%nat → Queue.tasks st !! i = Some ti →
              Queue.chat ti = Queue.chat tj → Queue.settled (Queue.status ti) = true) →
     (Queue.status tj = Queue.Waiting ∧ is_Some (Queue.step st (Queue.Begin j)))
     ∨ (Queue.status tj = Queue.Running
        ∧ ∀ ok, is_Some (Queue.step st (Queue.Finish j ok)))) as Hstep.
  { intros j tj Hj Hun Hearlier. simpl. rewrite Hj.
    destruct (Queue.status tj) eqn:Hs; try done.
    - left. split; [done|]. simpl.
      assert (Queue.previous_settled (Queue.tasks st) tj = true) as ->; [|eauto].
      unfold Queue.previous_settled.
      destruct (Queue.previousTask tj) as [p|] eqn:Hprev; [|done].
      destruct (previous_is_earlier_same_chat st j p tj Hinv Hj Hprev)
        as (Hpj & tp & Hp & Hc).
      rewrite Hp. by apply (Hearlier p tp).
    - right. split; [done|]. intros ok. simpl. eauto. }
  split; [exact Hstep|].
  intros (j & tj & Hj & Hun).
  destruct (least_unsettled _ j tj Hj Hun) as (j0 & t0 & Hj0 & Hun0 & Hmin).
  exists j0.
  destruct (Hstep j0 t0 Hj0 Hun0) as [[_ Hb]|[_ Hf]]; [|by left|by right].
  intros i ti Hi Hti _. by apply (Hmin i ti).
Qed.

Lemma queue_never_deadlocks_witness :
  Queue.reachable Queue.after_rejection
  ∧ ∃ j, is_Some (Queue.step Queue.after_rejection (Queue.Begin j))
         ∨ is_Some (Queue.step Queue.after_rejection (Queue.Finish j true)).
Proof.
  assert (Queue.reachable Queue.after_rejection) as Hreach.
  { exists [Queue.Incoming "A"%string false; Queue.Incoming "A"%string false;
            Queue.Begin 0; Queue.Finish 0 false].
    vm_compute. reflexivity. }
  split; [exact Hreach|].
  apply (proj2 (queue_never_deadlocks _ Hreach)).
  exists 1%nat, (Queue.mkTask "A"%string (Some 0%nat) Queue.Waiting).
  split; reflexivity.
Defined.

(** ** Waiting for the reply *)

Lemma poll_loop_attempts (answers : nat → Reply.Fetch) (fuel attempts : nat) :
  (attempts ≤ Reply.attempts_of (Reply.poll_loop fuel attempts answers) ≤ attempts + fuel)%nat.
Proof.
  revert attempts. induction fuel as [|fuel IH]; intros attempts; simpl; [lia|].
  destruct (answers (S attempts)) as [messages|message]; simpl; [|lia].
  destruct (last messages) as [i|]; [|specialize (IH (S attempts)); lia].
  destruct (Reply.error_of (Reply.info_error i)); simpl; [lia|].
  destruct (Reply.isAssistant i && Reply.isCompleted i); simpl; [lia|].
  specialize (IH (S attempts)); lia.
Qed.

Lemma poll_loop_pending_step (answers : nat → Reply.Fetch) (fuel attempts : nat) :
  Reply.pending (answers (S attempts)) = true →
  Reply.poll_loop (S fuel) attempts answers = Reply.poll_loop fuel (S attempts) answers.
Proof.
  intros Hp. simpl. unfold Reply.pending in Hp.
  destruct (answers (S attempts)) as [messages|message]; [|done].
  destruct (last messages) as [i|]; [|done].
  destruct (Reply.error_of (Reply.info_error i)); [done|].
  by destruct (Reply.isAssistant i && Reply.isCompleted i).
Qed.

Lemma poll_loop_completes (answers : nat → Reply.Fetch) (text : string)
    (fuel attempts k : nat) :
  (attempts < k ≤ attempts + fuel)%nat →
  (∀ i, (attempts < i < k)%nat → Reply.pending (answers i) = true) →
  Reply.completes (answers k) text →
  Reply.poll_loop fuel attempts answers = Reply.Broke k text.
Proof.
  revert attempts. induction fuel as [|fuel IH]; intros attempts Hk Hpend Hdone; [lia|].
  destruct (decide (k = S attempts)) as [->|Hne].
  - destruct Hdone as (messages & i & Hf & Hl & He & Hc & Hr). simpl.
    by rewrite Hf, Hl, He, Hc, Hr.
  - rewrite poll_loop_pending_step by (apply Hpend; lia).
    apply IH; [lia| |done]. intros i Hi. apply Hpend. lia.
Qed.

Lemma poll_loop_runs_out (answers : nat → Reply.Fetch) (fuel attempts : nat) :
  (∀ i, (attempts < i ≤ attempts + fuel)%nat → Reply.pending (answers i) = true) →
  Reply.poll_loop fuel attempts answers = Reply.RanOut (attempts + fuel).
Proof.
  revert attempts. induction fuel as [|fuel IH]; intros attempts Hpend.
  - simpl. f_equal. lia.
  - rewrite poll_loop_pending_step by (apply Hpend; lia).
    rewrite IH; [f_equal; lia|]. intros i Hi. apply Hpend. lia.
Qed.

(** X14.  The queued handler polls for the reply at most 60 times (90 s of
    sleeping at 1.5 s a poll).  When the polls before the k-th leave the
    loop going and the k-th shows the completed assistant message, the
    loop stops there; the reply (or "(Empty Response)" for an empty one)
    is what the user gets when k is below 60, but a reply that completes
    at the 60th poll is reported as a timeout, as is a loop whose 60 polls
    all leave it going. *)
Theorem reply_polls_at_most_sixty_times (answers : nat → Reply.Fetch) :
  (Reply.attempts_of (Reply.await_reply answers) ≤ 60)%nat
  ∧ Reply.SLEEP_MS * Z.of_nat (Reply.attempts_of (Reply.await_reply answers)) ≤ 90000
  ∧ (∀ k text, (1 ≤ k ≤ 60)%nat →
       (∀ i, (1 ≤ i < k)%nat → Reply.pending (answers i) = true) →
       Reply.completes (answers k) text →
       Reply.await_reply answers = Reply.Broke k text
       ∧ Reply.final_message (Reply.await_reply answers) =
           if bool_decide (k = 60%nat) then Reply.TIMEOUT_TEXT
           else if truthy text then text else Reply.EMPTY_TEXT)
  ∧ ((∀ i, (1 ≤ i ≤ 60)%nat → Reply.pending (answers i) = true) →
     Reply.await_reply answers = Reply.RanOut 60
     ∧ Reply.final_message (Reply.await_reply answers) = Reply.TIMEOUT_TEXT).
Proof.
  unfold Reply.await_reply, Reply.maxAttempts.
  pose proof (poll_loop_attempts answers 60 0) as Hmax.
  split; [lia|]. split; [unfold Reply.SLEEP_MS; lia|]. split.
  - intros k text Hk Hpend Hdone.
    rewrite (poll_loop_completes answers text 60 0 k); [|lia| |done].
    + split; [done|]. unfold Reply.final_message, Reply.maxAttempts.
      repeat case_bool_decide; (done || lia).
    + intros i Hi. apply Hpend. lia.
  - intros Hpend. rewrite (poll_loop_runs_out answers 60 0); [done|].
    intros i Hi. apply Hpend. lia.
Qed.

Lemma reply_polls_at_most_sixty_times_witness :
  let done := Reply.Fetched [Reply.mkItem Reply.NoError (Some "completed"%string)
                               (Some "assistant"%string) "Hi there"%string] in
  let busy := Reply.Fetched [Reply.mkItem Reply.NoError (Some "in_progress"%string)
                               (Some "assistant"%string) EmptyString] in
  let answers := λ k : nat, if bool_decide (k < 60)%nat then busy else done in
  (1 ≤ 60 ≤ 60)%nat
  ∧ (∀ i, (1 ≤ i < 60)%nat → Reply.pending (answers i) = true)
  ∧ Reply.completes (answers 60%nat) "Hi there"%string
  ∧ Reply.final_message (Reply.await_reply answers) = Reply.TIMEOUT_TEXT.
Proof.
  intros done busy answers.
  assert (∀ i, (1 ≤ i < 60)%nat → Reply.pending (answers i) = true) as Hpend.
  { intros i Hi. unfold answers. by rewrite bool_decide_eq_true_2 by lia. }
  assert (Reply.completes (answers 60%nat) "Hi there"%string) as Hdone.
  { eexists _, _. repeat split; reflexivity. }
  assert (1 ≤ 60 ≤ 60)%nat as Hk by lia.
  split; [exact Hk|]. split; [exact Hpend|]. split; [exact Hdone|].
  exact (proj2 (proj1 (proj2 (proj2 (reply_polls_at_most_sixty_times answers)))
                  60%nat "Hi there"%string Hk Hpend Hdone)).
Defined.

(** ** Resource download *)

(** X15.  [fetchFeishuResourceToBuffer] hands back a buffer only for a 2xx
    status, and the buffer is then the whole body and no longer than
    [maxBytes]; any other status is an HTTP error whatever the size; a
    2xx response is refused as too large when its declared
    [content-length] or its body exceeds [maxBytes], the declared length
    alone being enough. *)
Theorem resource_fetch_respects_ceiling (mime_of : option string → option string)
    (maxBytes : Z) (res : Resource.Response) :
  let status := Config.number_or (Resource.status res) 0 in
  let declared := Config.number_or (Resource.content_length res) 0 in
  let actual := Z.of_nat (length (Resource.data res)) in
  match Resource.fetchFeishuResourceToBuffer mime_of maxBytes res with
  | inr r =>
      200 ≤ status < 300
      ∧ Resource.buffer r = Resource.data res
      ∧ Z.of_nat (length (Resource.buffer r)) ≤ maxBytes
      ∧ (declared = 0 ∨ declared ≤ maxBytes)
  | inl (Resource.HttpError s) => s = status ∧ (status < 200 ∨ 300 ≤ status)
  | inl Resource.ContentTooLarge =>
      200 ≤ status < 300
      ∧ ((declared ≠ 0 ∧ maxBytes < declared) ∨ maxBytes < actual)
  end.
Proof.
  intros status declared actual. unfold Resource.fetchFeishuResourceToBuffer.
  fold status. fold declared. fold actual.
  repeat case_bool_decide; simpl; repeat split; try lia; try done.
Qed.

(** ** The webhook server *)

(** X16.  On the webhook path only a request that was answered with the
    acknowledgement of a message event can change the dedup cache or
    reach the handler: a request that is not a POST, has no body, cannot
    be parsed or decrypted, or is a URL verification leaves the cache as
    it is and calls nothing.  A message event is acknowledged whether or
    not it is new: a redelivered one gets the same acknowledgement and is
    then discarded by the dedup check. *)
Theorem webhook_acts_only_on_acknowledged_events
    (parse_json : string → option Webhook.Body)
    (decryptEvent : string → string → option string) (encryptKey : option string)
    (parse : option string → option (list string) → string)
    (cache : list string) (is_post : bool) (rawBody : string) :
  let r := Webhook.handle_request parse_json decryptEvent encryptKey parse
             cache is_post rawBody in
  (fst (fst r) ≠ Webhook.Accepted → snd (fst r) = cache ∧ snd r = [])
  ∧ (is_post = false → fst (fst r) = Webhook.MethodNotAllowed)
  ∧ (∀ body0 body event id,
       is_post = true → truthy rawBody = true →
       parse_json rawBody = Some body0 →
       Webhook.decrypted parse_json decryptEvent encryptKey body0 = Some body →
       Webhook.b_type body ≠ Some "url_verification"%string →
       Webhook.b_event_type body = Some "im.message.receive_v1"%string →
       Webhook.b_event body = Some event →
       Receive.checked_id (Receive.Hook event) = Some id → id ∈ cache →
       r = (Webhook.Accepted, cache, [Receive.Dedup id true])).
Proof.
  intros r. subst r. unfold Webhook.handle_request.
  split; [|split].
  - destruct is_post; simpl; [|done].
    destruct (truthy rawBody); simpl; [|done].
    destruct (parse_json rawBody) as [body0|]; [|done].
    destruct (Webhook.decrypted _ _ _ body0) as [body|]; [|done].
    case_bool_decide; [done|]. case_bool_decide; [|done].
    by destruct (Webhook.b_event body).
  - by intros ->.
  - intros body0 body event id -> Hraw Hp Hd Hty Hev Hevent Hid Hin.
    rewrite Hraw, Hp, Hd. simpl.
    rewrite bool_decide_eq_false_2 by done. rewrite bool_decide_eq_true_2 by done.
    rewrite Hevent.
    pose proof (receive_trace parse cache (Receive.Hook event)) as Htr.
    simpl in Htr. rewrite Htr.
    change (if truthy_opt (Receive.hk_message_id event)
               && truthy_opt (Receive.hk_chat_id event)
            then Receive.hk_message_id event else None)
      with (Receive.checked_id (Receive.Hook event)).
    rewrite Hid. apply has_true in Hin as ->. done.
Qed.

Lemma webhook_acts_only_on_acknowledged_events_witness :
  let parse_json := λ _ : string, (None : option Webhook.Body) in
  let decrypt := λ _ _ : string, (None : option string) in
  let parse := λ (c : option string) (_ : option (list string)), default EmptyString c in
  let r := Webhook.handle_request parse_json decrypt None parse
             ["om_1"%string] true "{"%string in
  fst (fst r) ≠ Webhook.Accepted
  ∧ snd (fst r) = ["om_1"%string] ∧ snd r = [].
Proof.
  intros parse_json decrypt parse r.
  assert (fst (fst r) ≠ Webhook.Accepted) as Hno by discriminate.
  split; [exact Hno|].
  exact (proj1 (webhook_acts_only_on_acknowledged_events parse_json decrypt None parse
                  ["om_1"%string] true "{"%string) Hno).
Defined.

(** ** Teams polling *)

Section PollFacts.

Variable extract : Polling.TeamsMessage → string.
Variable throws : Polling.TeamsMessage → bool.

Lemma last_cons_Some {A : Type} (x y : A) (l : list A) :
  last l = Some y → last (x :: l) = Some y.
Proof. destruct l; [done|]. done. Qed.

(** What the loop over the messages of a chat leaves behind. *)
Lemma deliver_all_spec (chatId : string) (lastSeen : option string)
    (msgs : list Polling.TeamsMessage) (cache cache' checked : list string)
    (calls : list Polling.Call) (threw : bool) :
  Polling.deliver_all extract throws chatId lastSeen cache msgs
  = (cache', checked, calls, threw) →
  cache' = Dedup.run_from Dedup.Teams cache checked
  ∧ checked `prefix_of` (Polling.msg_id <$> msgs)
  ∧ (threw = false → checked = Polling.msg_id <$> msgs)
  ∧ (Polling.c_messageId <$> calls)
      `sublist_of` Dedup.inserted_from Dedup.Teams cache checked
  ∧ calls `sublist_of`
      (Polling.call_of extract chatId <$> List.filter (Polling.wanted extract lastSeen) msgs)
  ∧ (threw = true →
     ∃ msg, msg ∈ msgs ∧ throws msg = true
            ∧ last calls = Some (Polling.call_of extract chatId msg)
            ∧ last checked = Some (Polling.msg_id msg)
            ∧ Polling.msg_id msg ∈ cache').
Proof.
  revert cache cache' checked calls threw.
  induction msgs as [|msg rest IH]; intros cache cache' checked calls threw H; simpl in H.
  - injection H as <- <- <- <-. simpl. repeat split; done.
  - destruct (Dedup.isMessageProcessed Dedup.Teams cache (Polling.msg_id msg))
      as [dup s1] eqn:Hmp.
    simpl in H.
    assert (∀ cache' checked0 calls0 threw,
      Polling.deliver_all extract throws chatId lastSeen s1 rest
      = (cache', checked0, calls0, threw) →
      ∀ mine : list Polling.Call,
        (mine = [] ∨ (mine = [Polling.call_of extract chatId msg] ∧ dup = false
                      ∧ Polling.wanted extract lastSeen msg = true)) →
      cache' = Dedup.run_from Dedup.Teams cache (Polling.msg_id msg :: checked0)
      ∧ Polling.msg_id msg :: checked0 `prefix_of` (Polling.msg_id <$> msg :: rest)
      ∧ (threw = false → Polling.msg_id msg :: checked0 = Polling.msg_id <$> msg :: rest)
      ∧ (Polling.c_messageId <$> mine ++ calls0)
          `sublist_of` Dedup.inserted_from Dedup.Teams cache (Polling.msg_id msg :: checked0)
      ∧ mine ++ calls0 `sublist_of`
          (Polling.call_of extract chatId
             <$> List.filter (Polling.wanted extract lastSeen) (msg :: rest))
      ∧ (threw = true →
         ∃ m, m ∈ msg :: rest ∧ throws m = true
              ∧ last (mine ++ calls0) = Some (Polling.call_of extract chatId m)
              ∧ last (Polling.msg_id msg :: checked0) = Some (Polling.msg_id m)
              ∧ Polling.msg_id m ∈ cache')) as Hrec.
    { intros c' ch0 cl0 th0 Hrest mine Hmine.
      destruct (IH _ _ _ _ _ Hrest) as (Hc & Hpre & Hall & Hins & Hsub & Hthrow).
      simpl. rewrite Hmp. simpl.
      split; [done|]. split; [by apply prefix_cons|].
      split; [intros Hth; by rewrite (Hall Hth)|]. split; [|split].
      - destruct Hmine as [->|(-> & -> & _)]; simpl.
        + by apply sublist_inserts_l.
        + by apply sublist_skip.
      - destruct Hmine as [->|(-> & _ & ->)]; simpl.
        + destruct (Polling.wanted extract lastSeen msg); simpl; [|done].
          by apply sublist_cons.
        + by apply sublist_skip.
      - intros Hth. destruct (Hthrow Hth) as (m & Hm & Htm & Hlc & Hlk & Hin).
        exists m. split; [by right|]. split; [done|]. split; [|split; [|done]].
        + rewrite last_app, Hlc. done.
        + by apply last_cons_Some. }
    destruct dup.
    + destruct (Polling.deliver_all extract throws chatId lastSeen s1 rest)
        as [[[c' ch0] cl0] th0] eqn:Hrest.
      injection H as <- <- <- <-. apply (Hrec _ _ _ _ eq_refl []). by left.
    + destruct (Polling.wanted extract lastSeen msg) eqn:Hw; simpl in H.
      * destruct (throws msg) eqn:Hth.
        -- injection H as <- <- <- <-. simpl. rewrite Hmp, Hw. simpl.
           split; [done|]. split; [apply prefix_cons, prefix_nil|]. split; [done|].
           split; [apply sublist_skip, sublist_nil|].
           split; [apply sublist_skip, sublist_nil_l|].
           intros _. exists msg. split; [by left|]. repeat split; try done.
           pose proof (isMessageProcessed_absent Dedup.Teams cache (Polling.msg_id msg))
             as Habs.
           rewrite Hmp in Habs. simpl in Habs.
           destruct (decide (Polling.msg_id msg ∈ cache)) as [Hin|Hout].
           ++ rewrite isMessageProcessed_present in Hmp by done. by injection Hmp.
           ++ by apply Habs.
        -- destruct (Polling.deliver_all extract throws chatId lastSeen s1 rest)
             as [[[c' ch0] cl0] th0] eqn:Hrest.
           injection H as <- <- <- <-.
           apply (Hrec _ _ _ _ eq_refl [Polling.call_of extract chatId msg]).
           by right.
      * destruct (Polling.deliver_all extract throws chatId lastSeen s1 rest)
          as [[[c' ch0] cl0] th0] eqn:Hrest.
        injection H as <- <- <- <-. apply (Hrec _ _ _ _ eq_refl []). by left.
Qed.

End PollFacts.

Lemma run_from_app (c : Dedup.Client) (a b s : list string) :
  Dedup.run_from c s (a ++ b) = Dedup.run_from c (Dedup.run_from c s a) b.
Proof. revert s. induction a as [|x a IH]; intros s; simpl; [done|]. apply IH. Qed.

Lemma inserted_from_app (c : Dedup.Client) (a b s : list string) :
  Dedup.inserted_from c s (a ++ b)
  = Dedup.inserted_from c s a ++ Dedup.inserted_from c (Dedup.run_from c s a) b.
Proof.
  revert s. induction a as [|x a IH]; intros s; simpl; [done|].
  by rewrite IH, (assoc_L (++)).
Qed.

(** An id is inserted by a run only at a check that finds it absent. *)
Lemma inserted_from_elem (c : Dedup.Client) (ids s : list string) (y : string) :
  y ∈ Dedup.inserted_from c s ids →
  ∃ a b, ids = a ++ y :: b ∧ y ∉ Dedup.run_from c s a.
Proof.
  revert s. induction ids as [|x ids IH]; intros s Hy; simpl in Hy.
  - by apply elem_of_nil in Hy.
  - apply elem_of_app in Hy as [Hy|Hy].
    + destruct (fst (Dedup.isMessageProcessed c s x)) eqn:Hf;
        [by apply elem_of_nil in Hy|].
      apply list_elem_of_singleton in Hy as ->.
      exists [], ids. split; [done|]. simpl. intros Hin.
      rewrite isMessageProcessed_present in Hf by done. done.
    + destruct (IH _ Hy) as (a & b & -> & Hout).
      exists (x :: a), b. done.
Qed.

(** A run of fewer than 2000 checks inserts no id twice. *)
Lemma inserted_from_NoDup (c : Dedup.Client) (ids s : list string) :
  NoDup s → Dedup.size s ≤ Dedup.CEILING → (length ids < 2000)%nat →
  NoDup (Dedup.inserted_from c s ids).
Proof.
  revert s. induction ids as [|x ids IH]; intros s Hnd Hsz Hlen; simpl; [constructor|].
  simpl in Hlen.
  destruct (run_from_inv_size c [x] s Hnd Hsz) as [Hnd1 Hsz1]. simpl in Hnd1, Hsz1.
  destruct (fst (Dedup.isMessageProcessed c s x)) eqn:Hf; simpl.
  - apply IH; [done|done|lia].
  - apply NoDup_cons. split; [|apply IH; [done|done|lia]].
    intros Hin. destruct (inserted_from_elem _ _ _ _ Hin) as (a & b & -> & Hout).
    assert (x ∉ s) as Hx.
    { intros Hx. rewrite isMessageProcessed_present in Hf by done. done. }
    destruct (isMessageProcessed_newest c s x Hnd Hx) as [s' Hs'].
    apply Hout. revert Hnd1 Hsz1. rewrite Hs'. intros Hnd1 Hsz1.
    apply newest_survives; [done|done|].
    pose proof (inserted_from_length c a (s' ++ [x])) as Hle.
    rewrite length_app in Hlen. simpl in Hlen. lia.
Qed.

Section PollTheorems.

Variable extract : Polling.TeamsMessage → string.
Variable throws : Polling.TeamsMessage → bool.

(** The pass in terms of the loop. *)
Lemma poll_chat_loop (chatId : string) (lastSeenMap : gmap string string)
    (cache : list string) (messages : list Polling.TeamsMessage) :
  let pass := Polling.poll_chat extract throws chatId lastSeenMap cache messages in
  Polling.deliver_all extract throws chatId (lastSeenMap !! chatId) cache (reverse messages)
  = (Polling.p_cache pass, Polling.p_checked pass, Polling.p_calls pass,
     Polling.p_aborted pass).
Proof.
  unfold Polling.poll_chat.
  destruct (Polling.deliver_all extract throws chatId (lastSeenMap !! chatId) cache
              (reverse messages)) as [[[c' ch] cl] th].
  by destruct th.
Qed.

(** X17.  In one pass over the messages fetched for a chat (newest first),
    the handler is called only for messages that are strictly newer than
    the chat's last-seen time (when one is stored), come from a user and
    have text, each with its own id, sender and extracted text, and the
    calls are made oldest message first. *)
Theorem poll_calls_are_wanted_and_oldest_first (chatId : string)
    (lastSeenMap : gmap string string) (cache : list string)
    (messages : list Polling.TeamsMessage) :
  let pass := Polling.poll_chat extract throws chatId lastSeenMap cache messages in
  Polling.p_calls pass `sublist_of`
    (Polling.call_of extract chatId
       <$> List.filter (Polling.wanted extract (lastSeenMap !! chatId)) (reverse messages))
  ∧ ∀ c, c ∈ Polling.p_calls pass →
      ∃ msg, msg ∈ messages
             ∧ c = Polling.mkCall chatId (extract msg) (Polling.msg_id msg)
                     (default EmptyString (Polling.from_user_id msg))
             ∧ truthy (extract msg) = true
             ∧ truthy_opt (Polling.from_user_id msg) = true
             ∧ (∀ seen, lastSeenMap !! chatId = Some seen → truthy seen = true →
                  String.leb (Polling.createdDateTime msg) seen = false).
Proof.
  intros pass.
  destruct (deliver_all_spec extract throws _ _ _ _ _ _ _ _
              (poll_chat_loop chatId lastSeenMap cache messages))
    as (_ & _ & _ & _ & Hsub & _).
  fold pass in Hsub. split; [done|].
  intros c Hc. pose proof (elem_of_sublist _ _ _ Hc Hsub) as Hin.
  apply list_elem_of_fmap in Hin as (msg & -> & Hmsg).
  apply list_elem_of_In, List.filter_In in Hmsg as [Hmsg Hw].
  apply list_elem_of_In in Hmsg. rewrite elem_of_reverse in Hmsg.
  exists msg. split; [done|]. split; [done|].
  unfold Polling.wanted in Hw.
  apply andb_true_iff in Hw as [[Hnew Huser]%andb_true_iff Htext].
  split; [done|]. split; [done|].
  intros seen Hseen Ht. rewrite Hseen in Hnew. simpl in Hnew. rewrite Ht in Hnew.
  simpl in Hnew. by apply negb_true_iff in Hnew.
Qed.

(** X18.  Over two passes in a row that fetch fewer than 2000 messages
    together (two polls of one chat that overlap, or polls of two chats),
    no message id is handed to the handler twice: neither twice in one
    pass nor once in each. *)
Theorem poll_hands_each_id_over_once (pre : list string)
    (chat1 chat2 : string) (lastSeenMap : gmap string string)
    (msgs1 msgs2 : list Polling.TeamsMessage) :
  let cache := Dedup.run Dedup.Teams pre in
  let pass1 := Polling.poll_chat extract throws chat1 lastSeenMap cache msgs1 in
  let pass2 :=
    Polling.poll_chat extract throws chat2 (Polling.p_lastSeen pass1)
      (Polling.p_cache pass1) msgs2 in
  (length msgs1 + length msgs2 < 2000)%nat →
  NoDup (Polling.c_messageId <$> (Polling.p_calls pass1 ++ Polling.p_calls pass2)).
Proof.
  intros cache pass1 pass2 Hlen.
  destruct (deliver_all_spec extract throws _ _ _ _ _ _ _ _
              (poll_chat_loop chat1 lastSeenMap cache msgs1))
    as (Hc1 & Hpre1 & _ & Hins1 & _).
  destruct (deliver_all_spec extract throws _ _ _ _ _ _ _ _
              (poll_chat_loop chat2 (Polling.p_lastSeen pass1)
                 (Polling.p_cache pass1) msgs2))
    as (_ & Hpre2 & _ & Hins2 & _).
  fold pass1 in Hc1, Hpre1, Hins1. fold pass2 in Hpre2, Hins2.
  eapply (sublist_NoDup _
            (Dedup.inserted_from Dedup.Teams cache
               (Polling.p_checked pass1 ++ Polling.p_checked pass2))); cycle 1.
  - rewrite fmap_app, inserted_from_app, <- Hc1. by apply sublist_app.
  - destruct (run_from_inv_size Dedup.Teams pre [] (NoDup_nil_2 (A:=string)))
      as [Hnd Hsz].
    { unfold Dedup.size, Dedup.CEILING. simpl. lia. }
    apply inserted_from_NoDup; [done|done|].
    apply prefix_length in Hpre1, Hpre2.
    rewrite length_fmap, length_reverse in Hpre1, Hpre2.
    rewrite length_app. lia.
Qed.

(** X19.  A pass that the handler does not cut short checks every fetched
    message and stores as the chat's last-seen time the creation time of
    the last message of the fetched list (the list is turned over in
    place before its first element is read).  A pass cut short by a throw
    of the handler stores nothing, and the message whose handling threw
    is nevertheless marked as processed: the dedup check answers [true]
    for it afterwards.  The last-seen times of other chats are never
    touched. *)
Theorem poll_last_seen_and_abort (chatId : string)
    (lastSeenMap : gmap string string) (cache : list string)
    (messages : list Polling.TeamsMessage) :
  let pass := Polling.poll_chat extract throws chatId lastSeenMap cache messages in
  (∀ other, other ≠ chatId → Polling.p_lastSeen pass !! other = lastSeenMap !! other)
  ∧ (Polling.p_aborted pass = false →
     Polling.p_checked pass = Polling.msg_id <$> reverse messages
     ∧ Polling.p_lastSeen pass !! chatId =
         match last messages with
         | Some m => Some (Polling.createdDateTime m)
         | None => lastSeenMap !! chatId
         end)
  ∧ (Polling.p_aborted pass = true →
     Polling.p_lastSeen pass = lastSeenMap
     ∧ ∃ msg, msg ∈ messages ∧ throws msg = true
              ∧ last (Polling.p_calls pass) = Some (Polling.call_of extract chatId msg)
              ∧ Dedup.isMessageProcessed Dedup.Teams (Polling.p_cache pass)
                  (Polling.msg_id msg)
                = (true, Polling.p_cache pass)).
Proof.
  intros pass.
  destruct (deliver_all_spec extract throws _ _ _ _ _ _ _ _
              (poll_chat_loop chatId lastSeenMap cache messages))
    as (_ & _ & Hall & _ & _ & Hthrow).
  fold pass in Hall, Hthrow.
  assert (Polling.p_lastSeen pass =
          if Polling.p_aborted pass then lastSeenMap
          else match last messages with
               | Some m => <[chatId := Polling.createdDateTime m]> lastSeenMap
               | None => lastSeenMap
               end) as Hls.
  { subst pass. unfold Polling.poll_chat.
    destruct (Polling.deliver_all extract throws chatId (lastSeenMap !! chatId) cache
                (reverse messages)) as [[[c' ch] cl] th].
    destruct th; simpl; [done|]. by rewrite head_reverse. }
  split; [|split].
  - intros other Hne. rewrite Hls.
    destruct (Polling.p_aborted pass); [done|].
    destruct (last messages); [|done]. by rewrite lookup_insert_ne.
  - intros Hno. split; [by apply Hall|]. rewrite Hls, Hno.
    destruct (last messages); [|done]. by rewrite lookup_insert_eq.
  - intros Hab. rewrite Hls, Hab. split; [done|].
    destruct (Hthrow Hab) as (msg & Hin & Hth & Hlast & _ & Hmark).
    exists msg. split; [by apply elem_of_reverse|]. split; [done|]. split; [done|].
    by apply isMessageProcessed_present.
Qed.

End PollTheorems.

Lemma poll_calls_are_wanted_and_oldest_first_witness :
  let pass := Polling.poll_chat Polling.plain_text (λ _, false) "chat-1"%string ∅ []
                [Polling.question; Polling.own_message] in
  let c := Polling.mkCall "chat-1"%string "hello"%string "m2"%string "user-1"%string in
  c ∈ Polling.p_calls pass
  ∧ ∃ msg, msg ∈ [Polling.question; Polling.own_message]
           ∧ c = Polling.mkCall "chat-1"%string (Polling.plain_text msg)
                   (Polling.msg_id msg) (default EmptyString (Polling.from_user_id msg)).
Proof.
  intros pass c.
  assert (c ∈ Polling.p_calls pass) as Hc by (vm_compute; by left).
  split; [exact Hc|].
  destruct (proj2 (poll_calls_are_wanted_and_oldest_first Polling.plain_text (λ _, false)
                     "chat-1"%string ∅ [] [Polling.question; Polling.own_message]) c Hc)
    as (msg & Hin & Heq & _).
  exists msg. split; [exact Hin|exact Heq].
Defined.

Lemma poll_hands_each_id_over_once_witness :
  let cache := Dedup.run Dedup.Teams ["m0"%string] in
  let pass1 := Polling.poll_chat Polling.plain_text (λ _, false) "chat-1"%string ∅ cache
                 [Polling.question; Polling.own_message] in
  let pass2 := Polling.poll_chat Polling.plain_text (λ _, false) "chat-1"%string
                 (Polling.p_lastSeen pass1) (Polling.p_cache pass1)
                 [Polling.question; Polling.own_message] in
  (length [Polling.question; Polling.own_message]
   + length [Polling.question; Polling.own_message] < 2000)%nat
  ∧ NoDup (Polling.c_messageId <$> (Polling.p_calls pass1 ++ Polling.p_calls pass2)).
Proof.
  intros cache pass1 pass2.
  assert (length [Polling.question; Polling.own_message]
          + length [Polling.question; Polling.own_message] < 2000)%nat as Hlen
    by (simpl; lia).
  split; [exact Hlen|].
  exact (poll_hands_each_id_over_once Polling.plain_text (λ _, false) ["m0"%string]
           "chat-1"%string "chat-1"%string ∅
           [Polling.question; Polling.own_message]
           [Polling.question; Polling.own_message] Hlen).
Defined.

Lemma poll_last_seen_and_abort_witness :
  let pass := Polling.poll_chat Polling.plain_text (λ _, true) "chat-1"%string ∅ []
                [Polling.question; Polling.own_message] in
  Polling.p_aborted pass = true
  ∧ Polling.p_lastSeen pass = ∅
  ∧ Dedup.isMessageProcessed Dedup.Teams (Polling.p_cache pass) "m2"%string
    = (true, Polling.p_cache pass).
Proof.
  intros pass.
  assert (Polling.p_aborted pass = true) as Hab by reflexivity.
  split; [exact Hab|].
  destruct (proj2 (proj2 (poll_last_seen_and_abort Polling.plain_text (λ _, true)
                            "chat-1"%string ∅ [] [Polling.question; Polling.own_message]))
              Hab) as (Hls & _).
  split; [exact Hls|]. vm_compute. reflexivity.
Defined.
